(** * File manager: command interpreter and path confinement

    A shallow embedding of the interactive file manager (the complete
    program copy: [safeResolve], [goUp], [changeDir], the file handlers and
    [handleLine]) together with the properties stated about it.

    Layout:
    - [Js]    : the JavaScript string and array operations the program uses;
    - [Path]  : Node's [path] module, POSIX flavour, as far as it is called;
    - [Fm]    : the program itself, over an arbitrary filesystem collaborator;
    - [Demo]  : a small concrete collaborator on which the program runs;
    - the notions used in the statements, then the facts and theorems.

    What the model fixes:
    - paths are POSIX paths: the root is [/] and the separator is [/];
      only the resolver is also stated over any [path] module, since its
      clamp is dead code on POSIX paths;
    - the filesystem, the host facts, the digest and the codecs are
      parameters: every theorem holds whatever they answer;
    - a handler is a state transformer that returns, throws, stays
      unsettled for ever, exits, or dies with the process on an event
      nobody listens to;
    - the unit of the model is the handler of one line, run from the world
      it finds to its end.  The [line] listener is not awaited by the
      emitter, so handlers of lines that arrive together overlap at their
      [await]s; such runs are outside the model.  Where transitions are
      composed ([nav_trace], [ups], a [cd] followed by [up]), each starts
      in the world that the one before it has left;
    - a stream pipeline is one step: it finishes, one of its two streams
      fails, or the codec between them fails. *)

From Stdlib Require Import List Ascii String Bool Arith Lia DecimalString.
From Stdlib Require Import Permutation Sorted.
Import ListNotations.

Set Implicit Arguments.

(* ===================================================================== *)
(** ** JavaScript strings and arrays *)
(* ===================================================================== *)

Module Js.

(** A string is its sequence of code units; the model keeps the code
    units below 256. *)
Definition str := list ascii.

Definition lit (s : string) : str := list_ascii_of_string s.

Fixpoint str_eqb (a b : str) : bool :=
  match a, b with
  | [], [] => true
  | x :: a', y :: b' => Ascii.eqb x y && str_eqb a' b'
  | _, _ => false
  end.

(** [s.startsWith(p)] *)
Fixpoint startsWith (s p : str) {struct p} : bool :=
  match p, s with
  | [], _ => true
  | y :: p', x :: s' => Ascii.eqb x y && startsWith s' p'
  | _ :: _, [] => false
  end.

(** [s.split(sep)] for a one-character separator: never the empty array. *)
Fixpoint split (sep : ascii) (s : str) : list str :=
  match s with
  | [] => [[]]
  | c :: s' =>
      if Ascii.eqb c sep then [] :: split sep s'
      else match split sep s' with
           | seg :: rest => (c :: seg) :: rest
           | [] => [[c]]
           end
  end.

(** Truthiness of a string: [Boolean(s)], so [!s] is [negb (truthy s)]. *)
Definition truthy (s : str) : bool :=
  match s with [] => false | _ :: _ => true end.

(** Truthiness of a possibly [undefined] string, such as [parts[1]]. *)
Definition truthy_opt (o : option str) : bool :=
  match o with None => false | Some s => truthy s end.

(** [a.join(sep)] *)
Fixpoint joinWith (sep : str) (l : list str) : str :=
  match l with
  | [] => []
  | [x] => x
  | x :: rest => x ++ sep ++ joinWith sep rest
  end.

(** [a.slice(n)] *)
Definition slice_from (n : nat) (l : list str) : list str := skipn n l.

(** White space and line terminators of ECMAScript among the code units
    below 256: TAB, LF, VT, FF, CR, SP and NBSP. *)
Definition is_ws (c : ascii) : bool :=
  let n := nat_of_ascii c in
  (Nat.leb 9 n && Nat.leb n 13) || Nat.eqb n 32 || Nat.eqb n 160.

Fixpoint trimStart (s : str) : str :=
  match s with
  | c :: s' => if is_ws c then trimStart s' else s
  | [] => []
  end.

(** [s.trim()] *)
Definition trim (s : str) : str := rev (trimStart (rev (trimStart s))).

(** [String(n)] for a natural number. *)
Definition of_nat (n : nat) : str :=
  lit (NilEmpty.string_of_uint (Nat.to_uint n)).

End Js.

Import Js.

(* ===================================================================== *)
(** ** Node's [path] module (POSIX) *)
(* ===================================================================== *)

Module Path.

Definition slash : ascii := "/"%char.
Definition dot : ascii := "."%char.

Definition is_dot (seg : str) : bool := str_eqb seg [dot].
Definition is_dotdot (seg : str) : bool := str_eqb seg [dot; dot].

(** [path.isAbsolute(p)] *)
Definition isAbsolute (p : str) : bool :=
  match p with
  | c :: _ => Ascii.eqb c slash
  | [] => false
  end.

(** [path.parse(p).root] *)
Definition parse_root (p : str) : str :=
  if isAbsolute p then [slash] else [].

(** The segment walk of [normalizeString]: [res] is the result built so
    far, last segment first.  Empty segments and [.] are skipped; [..]
    removes the last segment unless there is none or it is itself [..],
    in which case [..] is kept when [allowAboveRoot] and dropped
    otherwise. *)
Fixpoint collapse (allowAboveRoot : bool) (res : list str) (segs : list str)
  : list str :=
  match segs with
  | [] => rev res
  | seg :: rest =>
      if negb (truthy seg) || is_dot seg then collapse allowAboveRoot res rest
      else if is_dotdot seg then
        match res with
        | top :: res' =>
            if is_dotdot top
            then collapse allowAboveRoot
                   (if allowAboveRoot then seg :: res else res) rest
            else collapse allowAboveRoot res' rest
        | [] =>
            collapse allowAboveRoot
              (if allowAboveRoot then [seg] else []) rest
        end
      else collapse allowAboveRoot (seg :: res) rest
  end.

Definition normalizeString (path : str) (allowAboveRoot : bool) : str :=
  joinWith [slash] (collapse allowAboveRoot [] (split slash path)).

Definition endsWithSlash (p : str) : bool :=
  match rev p with
  | c :: _ => Ascii.eqb c slash
  | [] => false
  end.

(** [path.normalize(p)] *)
Definition normalize (path : str) : str :=
  match path with
  | [] => [dot]
  | _ :: _ =>
      let isAbs := isAbsolute path in
      let trailingSeparator := endsWithSlash path in
      match normalizeString path (negb isAbs) with
      | [] =>
          if isAbs then [slash]
          else if trailingSeparator then [dot; slash] else [dot]
      | p =>
          let p' := if trailingSeparator then p ++ [slash] else p in
          if isAbs then slash :: p' else p'
      end
  end.

(** [path.join(...args)]: the non-empty arguments, joined by [/], then
    normalized. *)
Definition join (args : list str) : str :=
  match filter truthy args with
  | [] => [dot]
  | parts => normalize (joinWith [slash] parts)
  end.

(** The backward scan of [path.dirname] over the code units at indices
    [length - 1 .. 1], given last first.  The answer is what precedes the
    slash at which the scan stops (again last first), or [None] when the
    scan runs out ([end === -1]). *)
Fixpoint dirname_scan (back : str) (matchedSlash : bool) : option str :=
  match back with
  | [] => None
  | c :: before =>
      if Ascii.eqb c slash then
        if matchedSlash then dirname_scan before true else Some before
      else dirname_scan before false
  end.

(** [path.dirname(p)] *)
Definition dirname (path : str) : str :=
  match path with
  | [] => [dot]
  | c0 :: tail =>
      let hasRoot := Ascii.eqb c0 slash in
      match dirname_scan (rev tail) true with
      | None => if hasRoot then [slash] else [dot]
      | Some before =>
          if hasRoot && negb (truthy before) then [slash; slash]
          else c0 :: rev before
      end
  end.

(** The backward scan of [path.basename]: trailing slashes are skipped,
    then code units are collected up to the next slash. *)
Fixpoint basename_scan (back : str) (matchedSlash : bool) (acc : str) : str :=
  match back with
  | [] => acc
  | c :: before =>
      if Ascii.eqb c slash then
        if matchedSlash then basename_scan before true acc else acc
      else basename_scan before false (c :: acc)
  end.

(** [path.basename(p)] *)
Definition basename (path : str) : str := basename_scan (rev path) true [].

End Path.

Import Path.

(* ===================================================================== *)
(** ** The program *)
(* ===================================================================== *)

Module Fm.

(** What [fs.Stats] and [fs.Dirent] tell the program. *)
Inductive Kind := KFile | KDirectory | KOther.

Definition isFile (k : Kind) : bool :=
  match k with KFile => true | _ => false end.

Definition isDirectory (k : Kind) : bool :=
  match k with KDirectory => true | _ => false end.

Record Dirent := { name : str; kind : Kind }.

(** The middle stage of a stream pipeline [rs.pipe(..).pipe(ws)]. *)
Inductive Stage := Direct | BrotliCompress | BrotliDecompress.

(** The filesystem capabilities the program invokes. *)
Inductive FsCall :=
| Stat (p : str)
| Readdir (p : str)
| OpenWx (p : str)
| Mkdir (p : str)
| Rename (src dest : str)
| Unlink (p : str)
| ReadStream (p : str)
| Pipeline (src : str) (stage : Stage) (dest : str).

(** What the program writes, one constructor per printing function. *)
Inductive Out :=
| OutCwd (p : str)            (* printCwd() *)
| OutInvalid                  (* invalidInput() *)
| OutFailed                   (* operationFailed() *)
| OutLog (s : str)            (* console.log(s) *)
| OutStdout (s : str)         (* rs.pipe(process.stdout) *)
| OutFarewell (user : str).   (* the line of exitAndCleanup() *)

(** The text of an output event; all but [OutStdout] are whole lines. *)
Definition render (o : Out) : str :=
  match o with
  | OutCwd p => lit "You are currently in " ++ p
  | OutInvalid => lit "Invalid input"
  | OutFailed => lit "Operation failed"
  | OutLog s => s
  | OutStdout s => s
  | OutFarewell u =>
      lit "Thank you for using File Manager, " ++ u ++ lit ", goodbye!"
  end.

Definition is_cwd_line (o : Out) : bool :=
  match o with OutCwd _ => true | _ => false end.

(** Facts of the host: [os], [process], [crypto], the collation used by
    [localeCompare] and the [--username] of the session.  A CPU is its
    model and the text of [(speed / 1000).toFixed(2)]. *)
Record Host := {
  EOL : str;
  cpus : list (str * str);
  homedir : str;
  userInfo_username : option str;   (* [None]: os.userInfo() throws *)
  arch : str;
  sha256_hex : str -> str;
  locale_le : str -> str -> bool;
  usernameForMessages : str
}.

(** How an asynchronous computation ends: it returns, it throws (the
    promise rejects), the promise it awaits never settles, the process
    exits ([process.exit]), or the process dies on an [error] event
    that has no listener. *)
Inductive Res (A : Type) :=
| Done (a : A)
| Thrown
| Unsettled
| Exited
| Crashed.

(** The labels of the dispatcher's [switch]. *)
Inductive Case :=
| CaseUp | CaseCd | CaseLs | CaseCat | CaseAdd | CaseMkdir | CaseRn
| CaseCp | CaseMv | CaseRm | CaseOs | CaseHash | CaseCompress
| CaseDecompress | CaseDefault.

Arguments Thrown {A}.
Arguments Unsettled {A}.
Arguments Exited {A}.
Arguments Crashed {A}.

(** What the resolver calls of [require('path')], which Node binds to
    [path.posix] or to [path.win32], by platform. *)
Record PathModule := {
  path_isAbsolute : str -> bool;
  path_normalize : str -> str;
  path_join : list str -> str;
  path_parse_root : str -> str
}.

Definition posix : PathModule :=
  {| path_isAbsolute := isAbsolute;
     path_normalize := normalize;
     path_join := join;
     path_parse_root := parse_root |}.

(** safe join: resolves but prevents going above root of current
    drive.  [dir] is the value of the global [cwd]. *)
Definition safeResolve_on (path : PathModule) (dir target : str) : str :=
  let resolved :=
    if path_isAbsolute path target then path_normalize path target
    else path_normalize path (path_join path [dir; target]) in
  let rootOfCwd := path_parse_root path dir in
  if negb (startsWith resolved rootOfCwd) then rootOfCwd else resolved.

Section Program.

(** The filesystem is any state [FS] with these operations; [None]
    stands for a rejected promise.  A stream hands over the data read
    and whether it ended ([true]) or emitted an error ([false]).  A
    pipeline leaves a filesystem and tells whether its write stream
    finished ([true]) or one of its two streams emitted an error
    ([false]).  [codec_error] tells whether the codec between the two
    streams emits an error before the pipeline is settled, and the
    filesystem that is left then. *)
Variable FS : Type.

Record Collab := {
  stat : FS -> str -> option Kind;
  readdir : FS -> str -> option (list Dirent);
  open_wx : FS -> str -> option FS;
  mkdir : FS -> str -> option FS;
  rename : FS -> str -> str -> option FS;
  unlink : FS -> str -> option FS;
  read_stream : FS -> str -> str * bool;
  pipeline : FS -> str -> Stage -> str -> FS * bool;
  codec_error : FS -> str -> Stage -> str -> option FS
}.

Variable io : Collab.
Variable host : Host.

(** The session: the global [cwd], the filesystem, what was printed
    and which capabilities were invoked (both oldest first). *)
Record World := {
  cwd : str;
  fs : FS;
  out : list Out;
  calls : list FsCall
}.

Definition M (A : Type) := World -> Res A * World.

Definition ret {A} (a : A) : M A := fun w => (Done a, w).

Definition bind {A B} (m : M A) (k : A -> M B) : M B :=
  fun w =>
    match m w with
    | (Done a, w') => k a w'
    | (Thrown, w') => (Thrown, w')
    | (Unsettled, w') => (Unsettled, w')
    | (Exited, w') => (Exited, w')
    | (Crashed, w') => (Crashed, w')
    end.

Definition throw {A} : M A := fun w => (Thrown, w).
Definition never {A} : M A := fun w => (Unsettled, w).
Definition exit {A} : M A := fun w => (Exited, w).

(** [try { m } catch (e) { h }] *)
Definition try_catch {A} (m : M A) (h : M A) : M A :=
  fun w =>
    match m w with
    | (Thrown, w') => h w'
    | r => r
    end.

(** [try { m } finally { f }] *)
Definition try_finally {A} (m : M A) (f : M unit) : M A :=
  fun w =>
    match m w with
    | (Done a, w') => bind f (fun _ => ret a) w'
    | (Thrown, w') => bind f (fun _ => throw) w'
    | r => r
    end.

Definition get_cwd : M str := fun w => (Done (cwd w), w).

Definition set_cwd (p : str) : M unit :=
  fun w => (Done tt,
            {| cwd := p; fs := fs w; out := out w; calls := calls w |}).

Definition emit (o : Out) : M unit :=
  fun w => (Done tt,
            {| cwd := cwd w; fs := fs w; out := out w ++ [o];
               calls := calls w |}).

Definition invoked (c : FsCall) (fs' : FS) (w : World) : World :=
  {| cwd := cwd w; fs := fs'; out := out w; calls := calls w ++ [c] |}.

(** A capability that answers without changing the filesystem. *)
Definition query {A} (c : FsCall) (f : FS -> option A) : M A :=
  fun w =>
    match f (fs w) with
    | Some a => (Done a, invoked c (fs w) w)
    | None => (Thrown, invoked c (fs w) w)
    end.

(** A capability that changes the filesystem when it succeeds. *)
Definition command (c : FsCall) (f : FS -> option FS) : M unit :=
  fun w =>
    match f (fs w) with
    | Some fs' => (Done tt, invoked c fs' w)
    | None => (Thrown, invoked c (fs w) w)
    end.

Local Notation "x <- m ;; k" := (bind m (fun x => k))
  (at level 61, m at next level, right associativity).
Local Notation "m ;; k" := (bind m (fun _ => k))
  (at level 61, right associativity).

(** *** Utility helpers *)

Definition printCwd : M unit := c <- get_cwd ;; emit (OutCwd c).
Definition invalidInput : M unit := emit OutInvalid.
Definition operationFailed : M unit := emit OutFailed.
Definition console_log (s : str) : M unit := emit (OutLog s).

Fixpoint console_log_each (lines : list str) : M unit :=
  match lines with
  | [] => ret tt
  | l :: rest => console_log l ;; console_log_each rest
  end.

(** [fsPromises.stat(p)] *)
Definition fs_stat (p : str) : M Kind :=
  query (Stat p) (fun f => stat io f p).

(** [fsPromises.stat(p).catch(() => null)] *)
Definition fs_stat_or_null (p : str) : M (option Kind) :=
  fun w => (Done (stat io (fs w) p), invoked (Stat p) (fs w) w).

(** [fs.createReadStream(p)], read to its end or to its error. *)
Definition fs_read_stream (p : str) : M (str * bool) :=
  fun w => (Done (read_stream io (fs w) p),
            invoked (ReadStream p) (fs w) w).

(** The promise around [rs.pipe(..).pipe(ws)]: resolved on [finish],
    rejected on an error of the read or of the write stream. *)
Definition fs_pipeline (src : str) (stage : Stage) (dest : str) : M unit :=
  fun w =>
    let r := pipeline io (fs w) src stage dest in
    (if snd r then Done tt else Thrown,
     invoked (Pipeline src stage dest) (fst r) w).

(** The promise around [rs.pipe(brot).pipe(ws)].  Only [rs] and [ws] have
    an [error] listener: an error of [brot] settles nothing, it is thrown
    where it is emitted and the process dies. *)
Definition fs_codec_pipeline (src : str) (stage : Stage) (dest : str)
  : M unit :=
  fun w =>
    match codec_error io (fs w) src stage dest with
    | Some fs' => (Crashed, invoked (Pipeline src stage dest) fs' w)
    | None => fs_pipeline src stage dest w
    end.

(** [safeResolve] on the platform of the model. *)
Definition safeResolve (dir target : str) : str :=
  safeResolve_on posix dir target.

(** [a.sort((a, b) => a.localeCompare(b))]: a stable sort. *)
Fixpoint sort_insert (x : str) (l : list str) : list str :=
  match l with
  | [] => [x]
  | y :: l' =>
      if locale_le host x y then x :: l else y :: sort_insert x l'
  end.

Definition sort (l : list str) : list str := fold_right sort_insert [] l.

Definition listDir : M unit :=
  try_catch
    (c <- get_cwd ;;
     items <- query (Readdir c) (fun f => readdir io f c) ;;
     let dirs :=
       sort (map name (filter (fun i => isDirectory (kind i)) items)) in
     let files :=
       sort (map name (filter (fun i => isFile (kind i)) items)) in
     console_log_each (map (fun d => d ++ lit " <DIR>") dirs) ;;
     console_log_each (map (fun f => f ++ lit " <FILE>") files))
    operationFailed.

Definition goUp : M unit :=
  c <- get_cwd ;;
  let parent := dirname c in
  let rootOfCwd := parse_root c in
  if str_eqb c rootOfCwd then ret tt
  else set_cwd parent.

Definition changeDir (arg : str) : M unit :=
  if negb (truthy arg) then invalidInput
  else
    c <- get_cwd ;;
    let dest := safeResolve c arg in
    try_catch
      (st <- fs_stat dest ;;
       if negb (isDirectory st) then invalidInput
       else
         let rootOfCwd := parse_root c in
         if negb (startsWith dest rootOfCwd) then ret tt
         else set_cwd dest)
      operationFailed.

(** On a stream error the handler prints and destroys the stream;
    [end] is then never emitted, and the promise awaited on it never
    settles. *)
Definition catFile (arg : str) : M unit :=
  if negb (truthy arg) then invalidInput
  else
    c <- get_cwd ;;
    let target := safeResolve c arg in
    try_catch
      (st <- fs_stat target ;;
       if negb (isFile st) then invalidInput
       else
         rs <- fs_read_stream target ;;
         emit (OutStdout (fst rs)) ;;
         if snd rs then console_log []
         else operationFailed ;; never)
      operationFailed.

Definition addFile (arg : str) : M unit :=
  if negb (truthy arg) then invalidInput
  else
    c <- get_cwd ;;
    let target := join [c; arg] in
    try_catch
      (command (OpenWx target) (fun f => open_wx io f target))
      operationFailed.

Definition makeDir (arg : str) : M unit :=
  if negb (truthy arg) then invalidInput
  else
    c <- get_cwd ;;
    let target := join [c; arg] in
    try_catch
      (command (Mkdir target) (fun f => mkdir io f target))
      operationFailed.

(** [oldP] is [parts[1]], which is [undefined] when there is no such
    token. *)
Definition renameFile (oldP : option str) (newName : str) : M unit :=
  match oldP with
  | Some oldP' =>
      if negb (truthy oldP') || negb (truthy newName) then invalidInput
      else
        c <- get_cwd ;;
        let src := safeResolve c oldP' in
        let dest := join [dirname src; newName] in
        try_catch
          (command (Rename src dest) (fun f => rename io f src dest))
          operationFailed
  | None => invalidInput
  end.

Definition copyFile (srcArg : option str) (destDirArg : str) : M unit :=
  match srcArg with
  | Some srcArg' =>
      if negb (truthy srcArg') || negb (truthy destDirArg)
      then invalidInput
      else
        c <- get_cwd ;;
        let src := safeResolve c srcArg' in
        let destDir := safeResolve c destDirArg in
        try_catch
          (st <- fs_stat src ;;
           if negb (isFile st) then invalidInput
           else
             dstStat <- fs_stat_or_null destDir ;;
             match dstStat with
             | Some d =>
                 if negb (isDirectory d) then invalidInput
                 else
                   let destPath := join [destDir; basename src] in
                   fs_pipeline src Direct destPath
             | None => invalidInput
             end)
          operationFailed
  | None => invalidInput
  end.

Definition moveFile (srcArg : option str) (destDirArg : str) : M unit :=
  match srcArg with
  | Some srcArg' =>
      if negb (truthy srcArg') || negb (truthy destDirArg)
      then invalidInput
      else
        c <- get_cwd ;;
        let src := safeResolve c srcArg' in
        let destDir := safeResolve c destDirArg in
        try_catch
          (st <- fs_stat src ;;
           if negb (isFile st) then invalidInput
           else
             dstStat <- fs_stat_or_null destDir ;;
             match dstStat with
             | Some d =>
                 if negb (isDirectory d) then invalidInput
                 else
                   let destPath := join [destDir; basename src] in
                   (* try rename first *)
                   renamed <-
                     try_catch
                       (command (Rename src destPath)
                          (fun f => rename io f src destPath) ;;
                        ret true)
                       (ret false) ;;
                   if renamed then ret tt
                   else
                     (* fallback to copy+delete using streams *)
                     fs_pipeline src Direct destPath ;;
                     command (Unlink src) (fun f => unlink io f src)
             | None => invalidInput
             end)
          operationFailed
  | None => invalidInput
  end.

Definition removeFile (arg : str) : M unit :=
  if negb (truthy arg) then invalidInput
  else
    c <- get_cwd ;;
    let target := safeResolve c arg in
    try_catch
      (st <- fs_stat target ;;
       if negb (isFile st) then invalidInput
       else command (Unlink target) (fun f => unlink io f target))
      operationFailed.

Definition cpu_line (i : nat) (c : str * str) : str :=
  lit "CPU " ++ of_nat (i + 1) ++ lit ": " ++ trim (fst c)
    ++ lit " - " ++ snd c ++ lit "GHz".

Fixpoint cpu_lines (i : nat) (l : list (str * str)) : list str :=
  match l with
  | [] => []
  | c :: rest => cpu_line i c :: cpu_lines (S i) rest
  end.

Definition osInfo (option : option str) : M unit :=
  try_catch
    (match option with
     | Some o =>
         if str_eqb o (lit "--EOL") then
           console_log
             (if str_eqb (EOL host) [ascii_of_nat 10]
              then lit "\n" else lit "\r\n")
         else if str_eqb o (lit "--cpus") then
           console_log
             (lit "Total CPUs: " ++ of_nat (List.length (cpus host))) ;;
           console_log_each (cpu_lines 0 (cpus host))
         else if str_eqb o (lit "--homedir") then
           console_log (homedir host)
         else if str_eqb o (lit "--username") then
           match userInfo_username host with
           | Some u => console_log u
           | None => throw
           end
         else if str_eqb o (lit "--architecture") then
           console_log (arch host)
         else invalidInput
     | None => invalidInput
     end)
    operationFailed.

Definition hashFile (arg : str) : M unit :=
  if negb (truthy arg) then invalidInput
  else
    c <- get_cwd ;;
    let target := safeResolve c arg in
    try_catch
      (st <- fs_stat target ;;
       if negb (isFile st) then invalidInput
       else
         rs <- fs_read_stream target ;;
         if snd rs then console_log (sha256_hex host (fst rs))
         else throw)
      operationFailed.

(** The body shared by [compressFile] and [decompressFile], which
    differ in the codec stage only. *)
Definition codecFile (stage : Stage) (srcArg : option str) (destArg : str)
  : M unit :=
  match srcArg with
  | Some srcArg' =>
      if negb (truthy srcArg') || negb (truthy destArg) then invalidInput
      else
        c <- get_cwd ;;
        let src := safeResolve c srcArg' in
        let destPath := safeResolve c destArg in
        try_catch
          (st <- fs_stat src ;;
           if negb (isFile st) then invalidInput
           else
             let destDir := dirname destPath in
             destStat <- fs_stat_or_null destDir ;;
             match destStat with
             | Some d =>
                 if negb (isDirectory d) then invalidInput
                 else fs_codec_pipeline src stage destPath
             | None => invalidInput
             end)
          operationFailed
  | None => invalidInput
  end.

Definition compressFile := codecFile BrotliCompress.
Definition decompressFile := codecFile BrotliDecompress.

(** *** Command dispatcher *)

Definition exitAndCleanup : M unit :=
  emit (OutFarewell (usernameForMessages host)) ;; exit.

(** The labels of [switch (cmd)]. *)
Definition case_of (cmd : option str) : Case :=
  match cmd with
  | Some c =>
      if str_eqb c (lit "up") then CaseUp
      else if str_eqb c (lit "cd") then CaseCd
      else if str_eqb c (lit "ls") then CaseLs
      else if str_eqb c (lit "cat") then CaseCat
      else if str_eqb c (lit "add") then CaseAdd
      else if str_eqb c (lit "mkdir") then CaseMkdir
      else if str_eqb c (lit "rn") then CaseRn
      else if str_eqb c (lit "cp") then CaseCp
      else if str_eqb c (lit "mv") then CaseMv
      else if str_eqb c (lit "rm") then CaseRm
      else if str_eqb c (lit "os") then CaseOs
      else if str_eqb c (lit "hash") then CaseHash
      else if str_eqb c (lit "compress") then CaseCompress
      else if str_eqb c (lit "decompress") then CaseDecompress
      else CaseDefault
  | None => CaseDefault
  end.

(** [trimmed.split(' ').filter(Boolean)] *)
Definition parts_of (trimmed : str) : list str :=
  filter truthy (split " "%char trimmed).

(** [parts.slice(n).join(' ')] *)
Definition rest_from (n : nat) (parts : list str) : str :=
  joinWith (lit " ") (slice_from n parts).

Definition dispatch (parts : list str) : M unit :=
  let cmd := nth_error parts 0 in
  match case_of cmd with
  | CaseUp => goUp
  | CaseCd => changeDir (rest_from 1 parts)
  | CaseLs => listDir
  | CaseCat => catFile (rest_from 1 parts)
  | CaseAdd => addFile (rest_from 1 parts)
  | CaseMkdir => makeDir (rest_from 1 parts)
  | CaseRn => renameFile (nth_error parts 1) (rest_from 2 parts)
  | CaseCp => copyFile (nth_error parts 1) (rest_from 2 parts)
  | CaseMv => moveFile (nth_error parts 1) (rest_from 2 parts)
  | CaseRm => removeFile (rest_from 1 parts)
  | CaseOs => osInfo (nth_error parts 1)
  | CaseHash => hashFile (rest_from 1 parts)
  | CaseCompress => compressFile (nth_error parts 1) (rest_from 2 parts)
  | CaseDecompress =>
      decompressFile (nth_error parts 1) (rest_from 2 parts)
  | CaseDefault => invalidInput
  end.

Definition is_exit_keyword (trimmed : str) : bool :=
  str_eqb trimmed (lit ".exit") || str_eqb trimmed (lit "exit").

Definition handleLine (line : str) : M unit :=
  let trimmed := trim line in
  if negb (truthy trimmed) then ret tt
  else if is_exit_keyword trimmed then exitAndCleanup
  else
    let parts := parts_of trimmed in
    try_finally
      (try_catch (dispatch parts) operationFailed)
      printCwd.

End Program.

End Fm.

Import Fm.

(* ===================================================================== *)
(** ** A concrete collaborator *)
(* ===================================================================== *)

(** A small filesystem on which the program can be run: a list of absolute
    paths with what is stored there.  A file that is not [readable] makes
    a read stream emit an error. *)
Module Demo.

Inductive Node := File (content : str) (readable : bool) | Dir.

Definition Disk := list (str * Node).

(** A path with a trailing slash names the same entry as without it. *)
Definition key (p : str) : str :=
  match rev p with
  | c :: (_ :: _) as before => if Ascii.eqb c slash then rev before else p
  | _ => p
  end.

Fixpoint find_key (d : Disk) (k : str) : option Node :=
  match d with
  | [] => None
  | (q, n) :: d' => if str_eqb q k then Some n else find_key d' k
  end.

Definition lookup (d : Disk) (p : str) : option Node := find_key d (key p).

Definition kind_of (n : Node) : Kind :=
  match n with File _ _ => KFile | Dir => KDirectory end.

Definition remove (p : str) (d : Disk) : Disk :=
  filter (fun e => negb (str_eqb (fst e) (key p))) d.

Definition is_dir (d : Disk) (p : str) : bool :=
  match lookup d p with Some Dir => true | _ => false end.

Definition d_stat (d : Disk) (p : str) : option Kind :=
  option_map kind_of (lookup d p).

Definition d_readdir (d : Disk) (p : str) : option (list Dirent) :=
  if is_dir d p then
    Some (map (fun e => {| name := basename (fst e); kind := kind_of (snd e) |})
            (filter (fun e => str_eqb (dirname (fst e)) (key p)
                              && negb (str_eqb (fst e) (key p))) d))
  else None.

Definition d_create (n : Node) (d : Disk) (p : str) : option Disk :=
  match lookup d p with
  | None =>
      if is_dir d (dirname p) then Some (d ++ [(key p, n)]) else None
  | Some _ => None
  end.

Definition d_rename (d : Disk) (a b : str) : option Disk :=
  match lookup d a with
  | Some n =>
      if is_dir d (dirname b)
      then Some (remove b (remove a d) ++ [(key b, n)])
      else None
  | None => None
  end.

Definition d_unlink (d : Disk) (p : str) : option Disk :=
  match lookup d p with
  | Some (File _ _) => Some (remove p d)
  | _ => None
  end.

Definition d_read_stream (d : Disk) (p : str) : str * bool :=
  match lookup d p with
  | Some (File c true) => (c, true)
  | _ => ([], false)
  end.

(** A stand-in for the codecs: compressed data is the data behind a
    mark, and data without the mark cannot be decompressed. *)
Definition mark : ascii := "~"%char.

Definition transform (s : Stage) (data : str) : option str :=
  match s with
  | Direct => Some data
  | BrotliCompress => Some (mark :: data)
  | BrotliDecompress =>
      match data with
      | c :: rest => if Ascii.eqb c mark then Some rest else None
      | [] => None
      end
  end.

Definition d_pipeline (d : Disk) (src : str) (s : Stage) (dest : str)
  : Disk * bool :=
  match lookup d src with
  | Some (File c true) =>
      if is_dir d (dirname dest) then
        match transform s c with
        | Some c' => (remove dest d ++ [(key dest, File c' true)], true)
        | None => (d, false)
        end
      else (d, false)
  | _ => (d, false)
  end.

(** The codec fails on data it cannot transform; the destination has been
    opened by then, and is left empty. *)
Definition d_codec_error (d : Disk) (src : str) (s : Stage) (dest : str)
  : option Disk :=
  match lookup d src with
  | Some (File c true) =>
      if is_dir d (dirname dest) then
        match transform s c with
        | Some _ => None
        | None => Some (remove dest d ++ [(key dest, File [] true)])
        end
      else None
  | _ => None
  end.

Definition io : Collab Disk :=
  {| stat := d_stat;
     readdir := d_readdir;
     open_wx := d_create (File [] true);
     mkdir := d_create Dir;
     rename := d_rename;
     unlink := d_unlink;
     read_stream := d_read_stream;
     pipeline := d_pipeline;
     codec_error := d_codec_error |}.

Fixpoint code_units_le (a b : str) : bool :=
  match a, b with
  | [], _ => true
  | _ :: _, [] => false
  | x :: a', y :: b' =>
      if Ascii.eqb x y then code_units_le a' b'
      else Nat.ltb (nat_of_ascii x) (nat_of_ascii y)
  end.

(** Stand-ins for the host facts; the digest is the length of the data. *)
Definition host : Host :=
  {| EOL := [ascii_of_nat 10];
     cpus := [(lit " Demo CPU ", lit "2.40")];
     homedir := lit "/home/u";
     userInfo_username := Some (lit "u");
     arch := lit "x64";
     sha256_hex := fun data => of_nat (List.length data);
     locale_le := code_units_le;
     usernameForMessages := lit "u" |}.

Definition disk0 : Disk :=
  [ (lit "/", Dir);
    (lit "/home", Dir);
    (lit "/home/u", Dir);
    (lit "/home/u/a.txt", File (lit "hi") true);
    (lit "/home/u/secret.txt", File (lit "x") false);
    (lit "/tmp", Dir) ].

Definition world0 : World Disk :=
  {| cwd := lit "/home/u"; fs := disk0; out := []; calls := [] |}.

Definition at_root : World Disk :=
  {| cwd := lit "/"; fs := disk0; out := []; calls := [] |}.

(** The world that the handler of [line], started in [w], leaves. *)
Definition after_line (line : string) (w : World Disk) : World Disk :=
  snd (handleLine io host (lit line) w).

(** What a world shows on the terminal. *)
Definition printed (w : World Disk) : list string :=
  map (fun o => string_of_list_ascii (render o)) (out w).

(** A [path] module with drive letters, standing in for [path.win32] on
    paths written [X:\a\b]: such a path is absolute, its root is its
    first three code units, and its segments are collapsed as on POSIX
    paths. *)
Definition backslash : ascii := ascii_of_nat 92.

Definition drive_root (p : str) : str :=
  match p with
  | d :: c :: s :: _ =>
      if Ascii.eqb c ":"%char && Ascii.eqb s backslash then [d; c; s] else []
  | _ => []
  end.

Definition drive_normalize (p : str) : str :=
  let root := drive_root p in
  root ++ joinWith [backslash]
            (collapse (negb (truthy root)) []
               (split backslash (skipn (List.length root) p))).

Definition drive_join (args : list str) : str :=
  drive_normalize (joinWith [backslash] (filter truthy args)).

Definition drives : PathModule :=
  {| path_isAbsolute := fun p => truthy (drive_root p);
     path_normalize := drive_normalize;
     path_join := drive_join;
     path_parse_root := drive_root |}.

(** The path [X:\seg\..\seg] on drive [X]. *)
Definition on_drive (letter : ascii) (segs : list string) : str :=
  [letter; ":"%char; backslash] ++ joinWith [backslash] (map lit segs).

End Demo.

(* ===================================================================== *)
(** ** Notions used in the statements *)
(* ===================================================================== *)

(** A plain segment: a name, that is, not empty, without [/], and neither
    [.] nor [..]. *)
Definition plainb (seg : str) : bool :=
  truthy seg && negb (existsb (Ascii.eqb slash) seg)
  && negb (is_dot seg) && negb (is_dotdot seg).

(** The text of a path below a root: its segments joined by [/], with or
    without a trailing [/]; no segments is the root itself. *)
Definition body (segs : list str) (trail : bool) : str :=
  match segs with
  | [] => []
  | _ :: _ => joinWith [slash] segs ++ (if trail then [slash] else [])
  end.

(** [p] is [root] or a descendant of it: [root] followed by plain
    segments. *)
Definition below (root p : str) : Prop :=
  exists segs trail, forallb plainb segs = true /\ p = root ++ body segs trail.

(** The two transitions that move the working directory. *)
Inductive Nav := NavUp | NavCd (arg : str).

Section Navigation.

Variable FS : Type.
Variable io : Collab FS.

Definition nav (o : Nav) : M FS unit :=
  match o with
  | NavUp => goUp (FS := FS)
  | NavCd arg => changeDir io arg
  end.

(** The worlds after every non-empty prefix of a sequence of
    transitions. *)
Fixpoint nav_trace (ops : list Nav) (w : World FS) : list (World FS) :=
  match ops with
  | [] => []
  | o :: rest => let w' := snd (nav o w) in w' :: nav_trace rest w'
  end.

End Navigation.

(** The handlers that take one path and require its target to exist. *)
Inductive TargetOp := OnCd | OnCat | OnRm | OnHash.

Definition target_case (o : TargetOp) : Case :=
  match o with
  | OnCd => CaseCd
  | OnCat => CaseCat
  | OnRm => CaseRm
  | OnHash => CaseHash
  end.

(** The kind of entry the handler asks for. *)
Definition wanted (o : TargetOp) (k : Kind) : bool :=
  match o with
  | OnCd => isDirectory k
  | _ => isFile k
  end.

(** The number of positional arguments a handler requires. *)
Definition required_args (c : Case) : nat :=
  match c with
  | CaseUp | CaseLs | CaseDefault => 0
  | CaseCd | CaseCat | CaseAdd | CaseMkdir | CaseRm | CaseOs | CaseHash => 1
  | CaseRn | CaseCp | CaseMv | CaseCompress | CaseDecompress => 2
  end.

(** A line written with [S n] spaces before each argument token. *)
Fixpoint spaced (args : list (nat * str)) : str :=
  match args with
  | [] => []
  | (n, tok) :: rest => repeat " "%char (S n) ++ tok ++ spaced rest
  end.


(** A token as the parser sees it: not empty, and without a space; any
    other code unit, white space too, may be part of it. *)
Definition token (tok : str) : bool :=
  truthy tok && negb (existsb (Ascii.eqb " "%char) tok).

(** The destination [renameFile] hands to [rename]. *)
Definition rename_dest (dir oldP newName : str) : str :=
  join [dirname (safeResolve dir oldP); newName].

(** The target [addFile] and [makeDir] hand to the filesystem. *)
Definition create_target (dir arg : str) : str := join [dir; arg].

(** How a computation ended, without its value. *)
Inductive Ending := EDone | EThrown | EUnsettled | EExited | ECrashed.

Definition ending {A : Type} (r : Res A) : Ending :=
  match r with
  | Done _ => EDone
  | Thrown => EThrown
  | Unsettled => EUnsettled
  | Exited => EExited
  | Crashed => ECrashed
  end.

(** Properties of a computation, whatever the world it starts from. *)
Section Frames.

Variable FS : Type.

(** Every run relates the world before to the world after by [R] and ends
    in a way that [ok] allows. *)
Definition steps (R : World FS -> World FS -> Prop) (ok : Ending -> Prop)
  {A : Type} (m : M FS A) : Prop :=
  forall w, R w (snd (m w)) /\ ok (ending (fst (m w))).

(** The working directory is what it was. *)
Definition same_cwd (w w' : World FS) : Prop := cwd w' = cwd w.

(** Output was only added, and no cwd line is among what was added. *)
Definition adds_no_cwd_line (w w' : World FS) : Prop :=
  exists mid, out w' = out w ++ mid /\ existsb is_cwd_line mid = false.

(** The filesystem was neither asked nor changed. *)
Definition untouched (w w' : World FS) : Prop :=
  fs w' = fs w /\ calls w' = calls w.

(** The world after [printCwd]. *)
Definition reported (w : World FS) : World FS :=
  {| cwd := cwd w; fs := fs w; out := out w ++ [OutCwd (cwd w)];
     calls := calls w |}.

(** The world after [operationFailed]. *)
Definition failed (w : World FS) : World FS :=
  {| cwd := cwd w; fs := fs w; out := out w ++ [OutFailed];
     calls := calls w |}.

(** The working directory may be replaced. *)
Definition allows_set_cwd (R : World FS -> World FS -> Prop) : Prop :=
  forall p w,
    R w {| cwd := p; fs := fs w; out := out w; calls := calls w |}.

(** How the handler that a case of the switch selects may end: every
    handler may return or throw, only [cat] may stay unsettled, only the
    two codec commands may die with the process, and none exits. *)
Definition may_end (c : Case) (e : Ending) : Prop :=
  match e with
  | EDone | EThrown => True
  | EUnsettled => c = CaseCat
  | ECrashed => c = CaseCompress \/ c = CaseDecompress
  | EExited => False
  end.

Definition does_not_exit (e : Ending) : Prop := e <> EExited.

End Frames.

Unset Implicit Arguments.

Set Implicit Arguments.

(* ===================================================================== *)
(** ** Startup and shutdown *)
(* ===================================================================== *)

Module Startup.

(** The loop over [process.argv.slice(2)]: the first argument that starts
    with [--username=] decides, and gives what lies between its first and
    its second [=]; [None] is the initial [null]. *)
Fixpoint providedUsername (argv : list str) : option str :=
  match argv with
  | [] => None
  | a :: rest =>
      if startsWith a (lit "--username=")
      then nth_error (split "="%char a) 1
      else providedUsername rest
  end.

Definition usage : str :=
  lit "Missing --username argument. Use: npm run start -- --username=your_username".

Definition welcome (user : str) : Out :=
  OutLog (lit "Welcome to the File Manager, " ++ user ++ lit "!").

(** The host facts of a session whose user is [user]. *)
Definition with_user (host : Host) (user : str) : Host :=
  {| EOL := EOL host;
     cpus := cpus host;
     homedir := homedir host;
     userInfo_username := userInfo_username host;
     arch := arch host;
     sha256_hex := sha256_hex host;
     locale_le := locale_le host;
     usernameForMessages := user |}.

Section Start.

Variable FS : Type.

(** How the program starts: it ends at once with the usage message on the
    error channel and status 1, or it greets the user and waits in the
    home directory. *)
Inductive Started :=
| Fatal (message : str)
| Running (host : Host) (w : World FS).

Definition start (host : Host) (argv : list str) (disk : FS) : Started :=
  match providedUsername argv with
  | Some user =>
      if negb (truthy user) then Fatal usage
      else
        Running (with_user host user)
          {| cwd := homedir host; fs := disk;
             out := [welcome user; OutCwd (homedir host)];
             calls := [] |}
  | None => Fatal usage
  end.

(** The handler of [SIGINT]. *)
Definition onSigint (host : Host) : M FS unit :=
  bind (console_log []) (fun _ => exitAndCleanup host).

End Start.

End Startup.

(* ===================================================================== *)
(** ** The reduced program copy *)
(* ===================================================================== *)

(** The second copy of the program has the same helpers, the same
    handlers up to [copyFile] and the same dispatcher, but it does not
    define [moveFile], [removeFile], [osInfo], [hashFile], [compressFile]
    and [decompressFile]: calling one of them throws a [ReferenceError]
    before any argument is evaluated. *)
Module Reduced.

Section Program.

Variable FS : Type.
Variable io : Collab FS.
Variable host : Host.

Definition dispatch (parts : list str) : M FS unit :=
  let cmd := nth_error parts 0 in
  match case_of cmd with
  | CaseUp => goUp (FS := FS)
  | CaseCd => changeDir io (rest_from 1 parts)
  | CaseLs => listDir io host
  | CaseCat => catFile io (rest_from 1 parts)
  | CaseAdd => addFile io (rest_from 1 parts)
  | CaseMkdir => makeDir io (rest_from 1 parts)
  | CaseRn => renameFile io (nth_error parts 1) (rest_from 2 parts)
  | CaseCp => copyFile io (nth_error parts 1) (rest_from 2 parts)
  | CaseMv => throw (FS := FS)
  | CaseRm => throw (FS := FS)
  | CaseOs => throw (FS := FS)
  | CaseHash => throw (FS := FS)
  | CaseCompress => throw (FS := FS)
  | CaseDecompress => throw (FS := FS)
  | CaseDefault => invalidInput (FS := FS)
  end.

Definition handleLine (line : str) : M FS unit :=
  let trimmed := trim line in
  if negb (truthy trimmed) then ret (FS := FS) tt
  else if is_exit_keyword trimmed then exitAndCleanup host
  else
    let parts := parts_of trimmed in
    try_finally
      (try_catch (dispatch parts) (operationFailed (FS := FS)))
      (printCwd (FS := FS)).

End Program.

End Reduced.

(* ===================================================================== *)
(** ** More notions used in the statements *)
(* ===================================================================== *)

(** The commands whose handlers only look at the filesystem. *)
Definition read_only (c : Case) : bool :=
  match c with
  | CaseUp | CaseCd | CaseLs | CaseCat | CaseOs | CaseHash | CaseDefault =>
      true
  | _ => false
  end.

(** The commands whose handlers the reduced copy lacks. *)
Definition absent_in_reduced (c : Case) : bool :=
  match c with
  | CaseMv | CaseRm | CaseOs | CaseHash | CaseCompress | CaseDecompress =>
      true
  | _ => false
  end.


(** The paths a capability is invoked on. *)
Definition paths_of (c : FsCall) : list str :=
  match c with
  | Stat p | Readdir p | OpenWx p | Mkdir p | Unlink p | ReadStream p => [p]
  | Rename a b => [a; b]
  | Pipeline a _ b => [a; b]
  end.

Definition is_unlink (c : FsCall) : bool :=
  match c with Unlink _ => true | _ => false end.

(** The demo filesystem when source and destination are on different
    devices: every rename is rejected. *)
Definition cross_device_io : Collab Demo.Disk :=
  {| stat := Demo.d_stat;
     readdir := Demo.d_readdir;
     open_wx := Demo.d_create (Demo.File [] true);
     mkdir := Demo.d_create Demo.Dir;
     rename := fun _ _ _ => None;
     unlink := Demo.d_unlink;
     read_stream := Demo.d_read_stream;
     pipeline := Demo.d_pipeline;
     codec_error := Demo.d_codec_error |}.

(** The capabilities that only look at the filesystem. *)
Definition is_query (c : FsCall) : Prop :=
  match c with
  | Stat _ | Readdir _ | ReadStream _ => True
  | _ => False
  end.

(** Every path a capability is invoked on is the root or below it. *)
Definition call_below (c : FsCall) : Prop :=
  Forall (below [slash]) (paths_of c).

Section Worlds.

Variable FS : Type.

(** A world in which more was printed and more capabilities were invoked,
    and nothing else differs. *)
Definition after (w : World FS) (printed : list Out) (invoked : list FsCall)
  : World FS :=
  {| cwd := cwd w; fs := fs w; out := out w ++ printed;
     calls := calls w ++ invoked |}.

(** A world in which more was printed, and nothing else differs. *)
Definition said (w : World FS) (printed : list Out) : World FS :=
  {| cwd := cwd w; fs := fs w; out := out w ++ printed; calls := calls w |}.

(** The same, in another working directory. *)
Definition moved (w : World FS) (dir : str) : World FS :=
  {| cwd := dir; fs := fs w; out := out w; calls := calls w |}.

(** Capabilities were only added to the log, and those added satisfy
    [P]. *)
Definition adds_calls (P : FsCall -> Prop) (w w' : World FS) : Prop :=
  exists cs, calls w' = calls w ++ cs /\ Forall P cs.

(** [n] times [up]. *)
Fixpoint ups (n : nat) (w : World FS) : World FS :=
  match n with
  | 0 => w
  | S n' => ups n' (snd (goUp w))
  end.

(** The names of the entries of one kind. *)
Definition names_of (want : Kind -> bool) (items : list Dirent) : list str :=
  map name (filter (fun i => want (kind i)) items).

(** The collation is total. *)
Definition total (le : str -> str -> bool) : Prop :=
  forall a b, le a b = true \/ le b a = true.

End Worlds.

Unset Implicit Arguments.

(* ===================================================================== *)
(** ** The definitions at work *)
(* ===================================================================== *)

Example normalize_examples :
  map normalize
    [lit "/home/u/../x//y/./z/"; lit "/.."; lit "a/.."; lit "../a/";
     lit "a/../../b"; lit "//a"; lit "/a/.../b"]
  = [lit "/home/x/y/z/"; lit "/"; lit "."; lit "../a/";
     lit "../b"; lit "/a"; lit "/a/.../b"].
Proof. reflexivity. Qed.

Example dirname_examples :
  map dirname [lit "/home/u"; lit "/home/u/"; lit "/"; lit "//a"; lit "a"]
  = [lit "/home"; lit "/home"; lit "/"; lit "//"; lit "."].
Proof. reflexivity. Qed.

Example basename_examples :
  map basename [lit "/home/u"; lit "/home/u/"; lit "/"; lit "a/b"]
  = [lit "u"; lit "u"; []; lit "b"].
Proof. reflexivity. Qed.

Example join_examples :
  map join [[lit "/home/u"; lit "sub/note.txt"]; [lit "/home/u"; lit "/tmp/x"];
            [lit "/home/u"; lit "../../.."]; [lit "/home/u"; []]]
  = [lit "/home/u/sub/note.txt"; lit "/home/u/tmp/x"; lit "/"; lit "/home/u"].
Proof. reflexivity. Qed.

(** With drive letters: a path on another drive is clamped to the root of
    the drive of the working directory. *)
Example safeResolve_on_drives :
  map (safeResolve_on Demo.drives (Demo.on_drive "C" ["Users"; "u"]%string))
    [lit "sub"; Demo.on_drive "C" ["Temp"]%string;
     Demo.on_drive "D" ["data"]%string]
  = [Demo.on_drive "C" ["Users"; "u"; "sub"]%string;
     Demo.on_drive "C" ["Temp"]%string;
     Demo.on_drive "C" []].
Proof. reflexivity. Qed.

Example safeResolve_examples :
  map (safeResolve (lit "/home/u"))
    [lit "sub"; lit "../../../etc"; lit "/tmp/../var/"; lit "./a//b"]
  = [lit "/home/u/sub"; lit "/etc"; lit "/var/"; lit "/home/u/a/b"].
Proof. reflexivity. Qed.

(** The scenario of the specification, on the demo filesystem, each line
    entered when the handler of the line before it has returned. *)
Example scenario :
  let w1 := Demo.after_line "mkdir sub" Demo.world0 in
  let w2 := Demo.after_line "cd sub" w1 in
  let w3 := Demo.after_line "up" w2 in
  let w4 := Demo.after_line "add sub/note.txt" w3 in
  let w5 := Demo.after_line "cat sub/note.txt" w4 in
  let w6 := Demo.after_line "rm nonexistent.txt" w5 in
  let w7 := Demo.after_line "hash sub" w6 in
  Demo.printed w7
  = ["You are currently in /home/u";
     "You are currently in /home/u/sub";
     "You are currently in /home/u";
     "You are currently in /home/u";
     ""; ""; "You are currently in /home/u";
     "Operation failed"; "You are currently in /home/u";
     "Invalid input"; "You are currently in /home/u"]%string.
Proof. reflexivity. Qed.

Example scenario_cwd :
  let w1 := Demo.after_line "cd /tmp/../home" Demo.world0 in
  let w2 := Demo.after_line "up" w1 in
  let w3 := Demo.after_line "up" w2 in
  (cwd w1, cwd w2, cwd w3) = (lit "/home", lit "/", lit "/").
Proof. reflexivity. Qed.

(* ===================================================================== *)
(** ** Facts about strings *)
(* ===================================================================== *)

Section StringFacts.

Lemma str_eqb_refl (a : str) : str_eqb a a = true.
Proof.
  induction a as [|x a IH]; simpl; auto.
  now rewrite Ascii.eqb_refl.
Qed.

Lemma str_eqb_eq (a b : str) : str_eqb a b = true <-> a = b.
Proof.
  split.
  - revert b; induction a as [|x a IH]; intros [|y b] H; simpl in H;
      try discriminate; auto.
    apply andb_true_iff in H as [Hxy Hab].
    apply Ascii.eqb_eq in Hxy. f_equal; auto.
  - intros ->. apply str_eqb_refl.
Qed.

Lemma str_eqb_neq (a b : str) : str_eqb a b = false <-> a <> b.
Proof.
  split.
  - intros H E. apply str_eqb_eq in E. congruence.
  - intros H. destruct (str_eqb a b) eqn:E; auto.
    apply str_eqb_eq in E. contradiction.
Qed.

Lemma startsWith_app (p s : str) : startsWith (p ++ s) p = true.
Proof.
  induction p as [|y p IH]; simpl; auto.
  now rewrite Ascii.eqb_refl.
Qed.

Lemma split_not_nil (sep : ascii) (s : str) : split sep s <> [].
Proof.
  destruct s as [|c s]; simpl; [discriminate|].
  destruct (Ascii.eqb c sep); [discriminate|].
  destruct (split sep s); discriminate.
Qed.

Lemma split_app_sep (sep : ascii) (a b : str) :
  split sep (a ++ sep :: b) = split sep a ++ split sep b.
Proof.
  induction a as [|c a IH]; simpl.
  - now rewrite Ascii.eqb_refl.
  - destruct (Ascii.eqb c sep).
    + now rewrite IH.
    + rewrite IH. pose proof (split_not_nil sep a) as Hne.
      destruct (split sep a); [contradiction|reflexivity].
Qed.

Lemma split_solid (sep : ascii) (s : str) :
  existsb (Ascii.eqb sep) s = false -> split sep s = [s].
Proof.
  induction s as [|c s IH]; simpl; auto.
  intros H. apply orb_false_iff in H as [Hc Hs].
  rewrite Ascii.eqb_sym, Hc. now rewrite IH.
Qed.

Lemma split_segments_solid (sep : ascii) (s : str) :
  forallb (fun seg => negb (existsb (Ascii.eqb sep) seg)) (split sep s) = true.
Proof.
  induction s as [|c s IH]; simpl; auto.
  destruct (Ascii.eqb c sep) eqn:E; simpl; auto.
  destruct (split sep s) as [|seg rest]; simpl in *.
  - now rewrite Ascii.eqb_sym, E.
  - now rewrite Ascii.eqb_sym, E.
Qed.

Lemma split_joinWith (sep : ascii) (segs : list str) :
  segs <> [] ->
  forallb (fun seg => negb (existsb (Ascii.eqb sep) seg)) segs = true ->
  split sep (joinWith [sep] segs) = segs.
Proof.
  induction segs as [|x segs IH]; [congruence|].
  intros _ H. simpl in H. apply andb_true_iff in H as [Hx Hs].
  apply negb_true_iff in Hx.
  destruct segs as [|y segs].
  - simpl. now apply split_solid.
  - change (joinWith [sep] (x :: y :: segs))
      with (x ++ sep :: joinWith [sep] (y :: segs)).
    rewrite split_app_sep, split_solid by assumption.
    rewrite IH by (auto; discriminate). reflexivity.
Qed.

Lemma joinWith_snoc (sep : str) (init : list str) (last : str) :
  init <> [] ->
  joinWith sep (init ++ [last]) = joinWith sep init ++ sep ++ last.
Proof.
  induction init as [|x init IH]; [congruence|]. intros _.
  destruct init as [|y init].
  - reflexivity.
  - change (joinWith sep ((x :: y :: init) ++ [last]))
      with (x ++ sep ++ joinWith sep ((y :: init) ++ [last])).
    rewrite IH by discriminate.
    change (joinWith sep (x :: y :: init))
      with (x ++ sep ++ joinWith sep (y :: init)).
    now rewrite <- !app_assoc.
Qed.

Lemma joinWith_cons2 (sep : str) (x y : str) (l : list str) :
  joinWith sep (x :: y :: l) = x ++ sep ++ joinWith sep (y :: l).
Proof. reflexivity. Qed.

End StringFacts.

(* ===================================================================== *)
(** ** Facts about paths *)
(* ===================================================================== *)

Section PathFacts.

Lemma plainb_inv (seg : str) :
  plainb seg = true ->
  truthy seg = true /\ existsb (Ascii.eqb slash) seg = false
  /\ is_dot seg = false /\ is_dotdot seg = false.
Proof.
  unfold plainb. intros H.
  repeat (apply andb_true_iff in H as [H ?]).
  repeat split; auto; now apply negb_true_iff.
Qed.

Lemma plain_segments_solid (segs : list str) :
  forallb plainb segs = true ->
  forallb (fun seg => negb (existsb (Ascii.eqb slash) seg)) segs = true.
Proof.
  induction segs as [|x segs IH]; simpl; auto.
  intros H. apply andb_true_iff in H as [Hx Hs].
  apply plainb_inv in Hx as (_ & Hx & _). rewrite Hx. simpl. auto.
Qed.

(** The walk leaves plain segments alone... *)
Lemma collapse_plain (b : bool) (segs res : list str) :
  forallb plainb segs = true -> collapse b res segs = rev res ++ segs.
Proof.
  revert res. induction segs as [|x segs IH]; intros res H; simpl.
  - now rewrite app_nil_r.
  - simpl in H. apply andb_true_iff in H as [Hx Hs].
    apply plainb_inv in Hx as (Ht & _ & Hd & Hdd).
    rewrite Ht, Hd, Hdd. simpl. rewrite IH by assumption.
    simpl. now rewrite <- app_assoc.
Qed.

(** ... can be resumed where it stopped ... *)
Lemma collapse_app (b : bool) (xs ys res : list str) :
  collapse b res (xs ++ ys) = collapse b (rev (collapse b res xs)) ys.
Proof.
  revert res. induction xs as [|x xs IH]; intros res; simpl.
  - now rewrite rev_involutive.
  - destruct (negb (truthy x) || is_dot x); [apply IH|].
    destruct (is_dotdot x); [|apply IH].
    destruct res as [|top res']; [apply IH|].
    destruct (is_dotdot top); apply IH.
Qed.

(** ... and, for an absolute path, produces plain segments only. *)
Lemma collapse_false_plain (segs res : list str) :
  forallb plainb res = true ->
  forallb (fun seg => negb (existsb (Ascii.eqb slash) seg)) segs = true ->
  forallb plainb (collapse false res segs) = true.
Proof.
  revert res. induction segs as [|x segs IH]; intros res Hres H; simpl.
  - apply forallb_forall. intros y Hy. apply in_rev in Hy.
    rewrite forallb_forall in Hres. auto.
  - simpl in H. apply andb_true_iff in H as [Hx Hs].
    destruct (negb (truthy x) || is_dot x) eqn:E1; [auto|].
    destruct (is_dotdot x) eqn:E2.
    + destruct res as [|top res']; [auto|].
      simpl in Hres. apply andb_true_iff in Hres as [Htop Hres'].
      destruct (is_dotdot top); apply IH; simpl; auto.
      now rewrite Htop.
    + apply IH; auto. simpl. rewrite Hres.
      apply orb_false_iff in E1 as [E1 E3].
      apply negb_false_iff in E1.
      unfold plainb. rewrite E1, E2, E3.
      apply negb_true_iff in Hx. now rewrite Hx.
Qed.

Lemma joinWith_plain_cons (x : str) (l : list str) :
  truthy x = true ->
  exists c rest, joinWith [slash] (x :: l) = c :: rest.
Proof.
  destruct x as [|c x]; [discriminate|]. intros _.
  destruct l; simpl; eauto.
Qed.

Lemma endsWithSlash_app (a b : str) :
  b <> [] -> endsWithSlash (a ++ b) = endsWithSlash b.
Proof.
  intros Hb. unfold endsWithSlash. rewrite rev_app_distr.
  destruct (rev b) as [|c r] eqn:E; [|reflexivity].
  apply (f_equal (@rev ascii)) in E. rewrite rev_involutive in E.
  simpl in E. contradiction.
Qed.

Lemma endsWithSlash_solid (b : str) :
  existsb (Ascii.eqb slash) b = false -> endsWithSlash b = false.
Proof.
  intros H. unfold endsWithSlash.
  destruct (rev b) as [|c r] eqn:E; [reflexivity|].
  destruct (Ascii.eqb c slash) eqn:Ec; [|reflexivity].
  apply Ascii.eqb_eq in Ec. subst c.
  assert (Hin : In slash b) by (apply in_rev; rewrite E; now left).
  assert (Hex : existsb (Ascii.eqb slash) b = true).
  { apply existsb_exists. exists slash. split; [assumption|].
    apply Ascii.eqb_refl. }
  congruence.
Qed.

Lemma endsWithSlash_joinWith (segs : list str) :
  segs <> [] -> forallb plainb segs = true ->
  endsWithSlash (joinWith [slash] segs) = false.
Proof.
  intros Hne H.
  destruct (exists_last Hne) as (init & last & ->).
  rewrite forallb_app in H. apply andb_true_iff in H as [_ Hl].
  simpl in Hl. rewrite andb_true_r in Hl.
  apply plainb_inv in Hl as (Ht & Hs & _).
  destruct init as [|y init].
  - simpl. now apply endsWithSlash_solid.
  - rewrite joinWith_snoc by discriminate.
    rewrite app_assoc, endsWithSlash_app.
    + now apply endsWithSlash_solid.
    + destruct last; [discriminate|discriminate].
Qed.

Lemma endsWithSlash_body (segs : list str) (t : bool) :
  segs <> [] -> forallb plainb segs = true ->
  endsWithSlash (slash :: body segs t) = t.
Proof.
  intros Hne H. destruct segs as [|x l]; [congruence|].
  unfold body. destruct t.
  - rewrite app_comm_cons, endsWithSlash_app by discriminate. reflexivity.
  - rewrite app_nil_r.
    destruct (joinWith_plain_cons x l) as (c & rest & E).
    { simpl in H. apply andb_true_iff in H as [Hx _].
      now apply plainb_inv in Hx. }
    change (slash :: joinWith [slash] (x :: l))
      with ([slash] ++ joinWith [slash] (x :: l)).
    rewrite endsWithSlash_app by (rewrite E; discriminate).
    now apply endsWithSlash_joinWith.
Qed.

(** Splitting the text of a canonical path gives its segments back. *)
Lemma collapse_split_canonical (b : bool) (res segs : list str) (t : bool) :
  forallb plainb segs = true ->
  collapse b res (split slash (slash :: body segs t)) = rev res ++ segs.
Proof.
  intros H.
  change (split slash (slash :: body segs t))
    with ([] :: split slash (body segs t)).
  change (collapse b res ([] :: split slash (body segs t)))
    with (collapse b res (split slash (body segs t))).
  destruct segs as [|x l].
  - simpl. now rewrite app_nil_r.
  - unfold body. destruct t.
    + rewrite split_app_sep, split_joinWith
        by (try discriminate; now apply plain_segments_solid).
      rewrite collapse_app, (collapse_plain b (x :: l)) by assumption.
      simpl. now rewrite rev_involutive.
    + rewrite app_nil_r, split_joinWith
        by (try discriminate; now apply plain_segments_solid).
      now apply collapse_plain.
Qed.

(** [normalize] on an absolute path, in terms of segments. *)
Lemma normalize_absolute (p : str) :
  isAbsolute p = true ->
  normalize p
  = slash :: body (collapse false [] (split slash p)) (endsWithSlash p)
  /\ forallb plainb (collapse false [] (split slash p)) = true.
Proof.
  intros Habs.
  assert (Hplain : forallb plainb (collapse false [] (split slash p)) = true).
  { apply collapse_false_plain; [reflexivity|apply split_segments_solid]. }
  split; [|assumption].
  destruct p as [|c p]; [discriminate|].
  unfold normalize, normalizeString. rewrite Habs. simpl negb.
  destruct (collapse false [] (split slash (c :: p))) as [|x l] eqn:E.
  - reflexivity.
  - destruct (joinWith_plain_cons x l) as (c' & rest & Ej).
    { simpl in Hplain. apply andb_true_iff in Hplain as [Hx _].
      now apply plainb_inv in Hx. }
    unfold body. rewrite Ej.
    destruct (endsWithSlash (c :: p)); [reflexivity|].
    now rewrite app_nil_r.
Qed.

Lemma normalize_canonical (segs : list str) (t : bool) :
  forallb plainb segs = true ->
  normalize (slash :: body segs t) = slash :: body segs t.
Proof.
  intros H.
  destruct (normalize_absolute (slash :: body segs t)) as [E _];
    [reflexivity|].
  rewrite E, collapse_split_canonical by assumption. simpl.
  destruct segs as [|x l]; [reflexivity|].
  now rewrite endsWithSlash_body by (auto; discriminate).
Qed.

Lemma normalize_idempotent_absolute (p : str) :
  isAbsolute p = true -> normalize (normalize p) = normalize p.
Proof.
  intros Habs. destruct (normalize_absolute p Habs) as [E Hp].
  rewrite E. now apply normalize_canonical.
Qed.

Lemma below_root_absolute (p : str) : below [slash] p -> isAbsolute p = true.
Proof. intros (segs & t & _ & ->). reflexivity. Qed.

Lemma normalize_below (p : str) :
  isAbsolute p = true -> below [slash] (normalize p).
Proof.
  intros Habs. destruct (normalize_absolute p Habs) as [E Hp].
  rewrite E. eexists _, _. split; [exact Hp|reflexivity].
Qed.

Lemma existsb_rev (f : ascii -> bool) (l : str) :
  existsb f (rev l) = existsb f l.
Proof.
  destruct (existsb f l) eqn:E.
  - apply existsb_exists in E as (x & Hx & Hf).
    apply existsb_exists. exists x. split; [now apply -> in_rev|assumption].
  - destruct (existsb f (rev l)) eqn:E'; [|reflexivity].
    apply existsb_exists in E' as (x & Hx & Hf).
    assert (existsb f l = true).
    { apply existsb_exists. exists x. split; [now apply in_rev|assumption]. }
    congruence.
Qed.

(** The scans step over a name in one go. *)
Lemma dirname_scan_solid (l r : str) (m : bool) :
  existsb (Ascii.eqb slash) l = false -> l <> [] ->
  dirname_scan (l ++ r) m = dirname_scan r false.
Proof.
  revert m. induction l as [|c l IH]; intros m H Hne; [congruence|].
  cbn [existsb] in H. apply orb_false_iff in H as [Hc Hl].
  cbn [dirname_scan app]. rewrite Ascii.eqb_sym, Hc.
  destruct l as [|c' l']; [reflexivity|].
  apply IH; [assumption|discriminate].
Qed.

Lemma basename_scan_solid (l r : str) (m : bool) (acc : str) :
  existsb (Ascii.eqb slash) l = false -> l <> [] ->
  basename_scan (l ++ r) m acc = basename_scan r false (rev l ++ acc).
Proof.
  revert m acc. induction l as [|c l IH]; intros m acc H Hne; [congruence|].
  cbn [existsb] in H. apply orb_false_iff in H as [Hc Hl].
  cbn [basename_scan app]. rewrite Ascii.eqb_sym, Hc.
  destruct l as [|c' l']; [reflexivity|].
  rewrite IH by (auto; discriminate).
  cbn [rev]. now rewrite <- !app_assoc.
Qed.

Lemma rev_solid (seg : str) :
  plainb seg = true ->
  existsb (Ascii.eqb slash) (rev seg) = false /\ rev seg <> [].
Proof.
  intros H. apply plainb_inv in H as (Ht & Hs & _).
  rewrite existsb_rev. split; [assumption|].
  destruct seg as [|c seg]; [discriminate|].
  simpl. intros E. apply app_eq_nil in E as [_ E]. discriminate.
Qed.

(** A canonical path, cut before its last segment. *)
Lemma body_snoc (init : list str) (last : str) (t : bool) :
  body (init ++ [last]) t
  = match init with
    | [] => last
    | _ :: _ => joinWith [slash] init ++ slash :: last
    end ++ (if t then [slash] else []).
Proof.
  destruct init as [|y init].
  - reflexivity.
  - unfold body. rewrite joinWith_snoc by discriminate. reflexivity.
Qed.

Lemma dirname_canonical (segs : list str) (t : bool) :
  forallb plainb segs = true ->
  dirname (slash :: body segs t) = slash :: body (removelast segs) false.
Proof.
  intros H. unfold dirname. rewrite Ascii.eqb_refl.
  destruct segs as [|x l] using rev_ind; [reflexivity|]. clear IHl.
  rewrite removelast_last, body_snoc.
  rewrite forallb_app in H. apply andb_true_iff in H as [Hl Hx].
  simpl in Hx. rewrite andb_true_r in Hx.
  destruct (rev_solid x Hx) as [Hs Hne].
  assert (Hskip : forall y : str,
             dirname_scan (rev (y ++ (if t then [slash] else []))) true
             = dirname_scan (rev y) true).
  { intros y. destruct t; [|now rewrite app_nil_r].
    rewrite rev_app_distr. reflexivity. }
  rewrite Hskip. destruct l as [|y l].
  - rewrite <- (app_nil_r (rev x)), dirname_scan_solid by assumption.
    reflexivity.
  - destruct (joinWith_plain_cons y l) as (c & rest & E).
    { simpl in Hl. apply andb_true_iff in Hl as [Hy _].
      now apply plainb_inv in Hy. }
    unfold body. rewrite app_nil_r.
    remember (joinWith [slash] (y :: l)) as J eqn:EJ.
    rewrite rev_app_distr. cbn [rev].
    rewrite <- !app_assoc, dirname_scan_solid by assumption.
    cbn [app dirname_scan]. rewrite Ascii.eqb_refl, rev_involutive.
    assert (Hr : truthy (rev J) = true).
    { rewrite E. simpl. destruct (rev rest); reflexivity. }
    rewrite Hr. reflexivity.
Qed.

Lemma basename_canonical (init : list str) (last : str) (t : bool) :
  plainb last = true ->
  basename (slash :: body (init ++ [last]) t) = last.
Proof.
  intros Hx. unfold basename. rewrite body_snoc.
  destruct (rev_solid last Hx) as [Hs Hne].
  assert (Hskip : forall y : str,
             basename_scan
               (rev (slash :: y ++ (if t then [slash] else []))) true []
             = basename_scan (rev (slash :: y)) true []).
  { intros y. destruct t; [|now rewrite app_nil_r].
    simpl. rewrite rev_app_distr. reflexivity. }
  rewrite Hskip. destruct init as [|y l].
  - simpl. rewrite basename_scan_solid by assumption.
    simpl. now rewrite rev_involutive, app_nil_r.
  - simpl rev. rewrite rev_app_distr. simpl rev at 1.
    rewrite <- !app_assoc, basename_scan_solid by assumption.
    simpl. now rewrite rev_involutive, app_nil_r.
Qed.

(** [path.join] of an absolute directory and an argument. *)
Lemma join_absolute (d arg : str) :
  isAbsolute d = true -> truthy arg = true ->
  join [d; arg] = normalize (d ++ slash :: arg).
Proof.
  intros Hd Ha. unfold join. simpl filter.
  destruct d as [|c d]; [discriminate|]. simpl truthy. cbv iota.
  rewrite Ha. reflexivity.
Qed.

Lemma join_absolute_empty (d : str) :
  isAbsolute d = true -> join [d; []] = normalize d.
Proof.
  intros Hd. unfold join. destruct d as [|c d]; [discriminate|]. reflexivity.
Qed.

Lemma join_absolute_below (d arg : str) :
  isAbsolute d = true ->
  isAbsolute (join [d; arg]) = true /\ below [slash] (join [d; arg]).
Proof.
  intros Hd.
  assert (H : below [slash] (join [d; arg])).
  { destruct arg as [|a arg].
    - rewrite join_absolute_empty by assumption. now apply normalize_below.
    - rewrite join_absolute by auto. apply normalize_below.
      destruct d; [discriminate|assumption]. }
  split; [now apply below_root_absolute|assumption].
Qed.

(** Joining onto a canonical directory, segment-wise. *)
Lemma join_canonical (dsegs : list str) (t : bool) (arg : str) :
  forallb plainb dsegs = true -> truthy arg = true ->
  join [slash :: body dsegs t; arg]
  = slash :: body (collapse false (rev dsegs) (split slash arg))
               (endsWithSlash arg).
Proof.
  intros Hd Ha. rewrite join_absolute by auto.
  destruct (normalize_absolute ((slash :: body dsegs t) ++ slash :: arg))
    as [E _]; [reflexivity|].
  rewrite E, split_app_sep, collapse_app, collapse_split_canonical
    by assumption.
  change (rev [] ++ dsegs) with dsegs.
  rewrite (endsWithSlash_app (slash :: body dsegs t) (slash :: arg))
    by discriminate.
  change (slash :: arg) with ([slash] ++ arg).
  rewrite endsWithSlash_app by (destruct arg; discriminate).
  reflexivity.
Qed.

(** [safeResolve] under an absolute working directory: the result is the
    normalized candidate, and it lies below the root. *)
Lemma safeResolve_absolute (dir target : str) :
  isAbsolute dir = true ->
  safeResolve dir target
  = (if isAbsolute target then normalize target
     else normalize (join [dir; target]))
  /\ below [slash] (safeResolve dir target).
Proof.
  intros Hd. unfold safeResolve, safeResolve_on.
  cbn [posix path_isAbsolute path_normalize path_join path_parse_root].
  unfold parse_root. rewrite Hd.
  assert (Hb : below [slash]
                 (if isAbsolute target then normalize target
                  else normalize (join [dir; target]))).
  { destruct (isAbsolute target) eqn:Ht.
    - now apply normalize_below.
    - apply normalize_below. now apply join_absolute_below. }
  destruct Hb as (segs & t & Hp & E). rewrite E. simpl.
  split; [reflexivity|]. exists segs, t. auto.
Qed.

End PathFacts.

(* ===================================================================== *)
(** ** The path resolver *)
(* ===================================================================== *)

Section Resolver.

(** C5 -- PathResolver contract.  Whatever [path] module the platform
    provides, [safeResolve] takes as candidate the normalized argument
    when the argument is absolute, and the normalized join of the working
    directory and the argument otherwise.  It returns the candidate when
    that starts with the root of the working directory and this root
    itself when it does not, so what it returns always starts with the
    root of the working directory.  On POSIX paths, under an absolute
    working directory, every candidate starts with the root: the clamp is
    never taken, the result is the candidate, and it is the root or a
    descendant of it. *)
Theorem safeResolve_contract (path : PathModule) (dir rawArg : str) :
  let candidate :=
    if path_isAbsolute path rawArg then path_normalize path rawArg
    else path_normalize path (path_join path [dir; rawArg]) in
  let boundary := path_parse_root path dir in
  (startsWith candidate boundary = true ->
   safeResolve_on path dir rawArg = candidate)
  /\ (startsWith candidate boundary = false ->
      safeResolve_on path dir rawArg = boundary)
  /\ startsWith (safeResolve_on path dir rawArg) boundary = true
  /\ (isAbsolute dir = true ->
      (isAbsolute rawArg = true -> safeResolve dir rawArg = normalize rawArg)
      /\ (isAbsolute rawArg = false -> truthy rawArg = true ->
          safeResolve dir rawArg = normalize (dir ++ slash :: rawArg))
      /\ startsWith
           (if isAbsolute rawArg then normalize rawArg
            else normalize (join [dir; rawArg]))
           (parse_root dir) = true
      /\ below (parse_root dir) (safeResolve dir rawArg)).
Proof.
  intros candidate boundary.
  assert (Hsame : startsWith boundary boundary = true).
  { rewrite <- (app_nil_r boundary) at 1. apply startsWith_app. }
  split; [|split; [|split]].
  - intros H. unfold safeResolve_on. fold candidate boundary. now rewrite H.
  - intros H. unfold safeResolve_on. fold candidate boundary. now rewrite H.
  - unfold safeResolve_on. fold candidate boundary.
    destruct (startsWith candidate boundary) eqn:H; cbn [negb]; assumption.
  - intros Hd.
    destruct (safeResolve_absolute dir rawArg Hd) as [E Hb].
    split; [|split; [|split]].
    + intros Ha. now rewrite E, Ha.
    + intros Ha Ht. rewrite E, Ha, join_absolute by assumption.
      apply normalize_idempotent_absolute.
      destruct dir; [discriminate|assumption].
    + rewrite <- E. destruct Hb as (segs & t & _ & Eb).
      rewrite Eb. unfold parse_root. rewrite Hd. apply startsWith_app.
    + unfold parse_root. now rewrite Hd.
Qed.

Lemma safeResolve_contract_witness :
  safeResolve_on Demo.drives
    (Demo.on_drive "C" ["Users"; "u"]%string)
    (Demo.on_drive "D" ["data"]%string)
  = Demo.on_drive "C" []
  /\ safeResolve (lit "/home/u") (lit "../../../etc/./passwd")
     = normalize (lit "/home/u" ++ slash :: lit "../../../etc/./passwd")
  /\ below (parse_root (lit "/home/u"))
       (safeResolve (lit "/home/u") (lit "../../../etc/./passwd")).
Proof.
  split.
  - exact (proj1 (proj2 (safeResolve_contract Demo.drives
                           (Demo.on_drive "C" ["Users"; "u"]%string)
                           (Demo.on_drive "D" ["data"]%string)))
             eq_refl).
  - destruct (proj2 (proj2 (proj2
                (safeResolve_contract posix (lit "/home/u")
                   (lit "../../../etc/./passwd")))) eq_refl)
      as (_ & Hrel & _ & Hbelow).
    split; [exact (Hrel eq_refl eq_refl)|exact Hbelow].
Defined.

(** C6 -- Resolution idempotence.  Under an absolute working directory,
    resolving an already resolved path again gives the same path. *)
Theorem safeResolve_idempotent (dir p : str) :
  isAbsolute dir = true ->
  safeResolve dir (safeResolve dir p) = safeResolve dir p.
Proof.
  intros Hd.
  destruct (safeResolve_absolute dir p Hd) as [_ (segs & t & Hp & E)].
  destruct (safeResolve_absolute dir (safeResolve dir p) Hd) as [E' _].
  rewrite E'. rewrite E. simpl.
  now apply normalize_canonical.
Qed.

Lemma safeResolve_idempotent_witness :
  safeResolve (lit "/home/u") (safeResolve (lit "/home/u") (lit "a/../b//c/"))
  = safeResolve (lit "/home/u") (lit "a/../b//c/").
Proof.
  apply (safeResolve_idempotent (lit "/home/u") (lit "a/../b//c/")).
  reflexivity.
Defined.

End Resolver.

(* ===================================================================== *)
(** ** Where entries are created and renamed *)
(* ===================================================================== *)

Section Targets.

Variable FS : Type.
Variable io : Collab FS.

Lemma renameFile_calls (w : World FS) (oldP newName : str) :
  truthy oldP = true -> truthy newName = true ->
  calls (snd (renameFile io (Some oldP) newName w))
  = calls w ++ [Rename (safeResolve (cwd w) oldP)
                  (rename_dest (cwd w) oldP newName)].
Proof.
  intros Ho Hn. unfold renameFile. rewrite Ho, Hn. cbn [negb orb].
  unfold bind, get_cwd, try_catch, command, operationFailed, emit, rename_dest.
  destruct (rename io (fs w) _ _); reflexivity.
Qed.

Lemma addFile_calls (w : World FS) (arg : str) :
  truthy arg = true ->
  calls (snd (addFile io arg w))
  = calls w ++ [OpenWx (create_target (cwd w) arg)].
Proof.
  intros Ha. unfold addFile. rewrite Ha. cbn [negb].
  unfold bind, get_cwd, try_catch, command, operationFailed, emit,
    create_target.
  destruct (open_wx io (fs w) _); reflexivity.
Qed.

Lemma makeDir_calls (w : World FS) (arg : str) :
  truthy arg = true ->
  calls (snd (makeDir io arg w))
  = calls w ++ [Mkdir (create_target (cwd w) arg)].
Proof.
  intros Ha. unfold makeDir. rewrite Ha. cbn [negb].
  unfold bind, get_cwd, try_catch, command, operationFailed, emit,
    create_target.
  destruct (mkdir io (fs w) _); reflexivity.
Qed.

(** The destination of a rename to a plain name. *)
Lemma rename_dest_plain (dir oldP newName : str) :
  isAbsolute dir = true -> plainb newName = true ->
  exists parent : list str,
    forallb plainb parent = true
    /\ dirname (safeResolve dir oldP) = slash :: body parent false
    /\ rename_dest dir oldP newName
       = slash :: body (parent ++ [newName]) false.
Proof.
  intros Hd Hn.
  destruct (safeResolve_absolute dir oldP Hd) as [_ (segs & t & Hp & E)].
  assert (Hparent : forallb plainb (removelast segs) = true).
  { apply forallb_forall. intros x Hx.
    rewrite forallb_forall in Hp. apply Hp.
    destruct segs as [|y l] using rev_ind; [contradiction|].
    rewrite removelast_last in Hx. apply in_or_app. now left. }
  exists (removelast segs). split; [assumption|].
  unfold rename_dest. rewrite E. cbn [app].
  rewrite dirname_canonical by assumption. split; [reflexivity|].
  destruct (plainb_inv newName Hn) as (Ht & Hs & _).
  rewrite join_canonical by assumption.
  rewrite split_solid, collapse_plain, rev_involutive by
    (try assumption; cbn [forallb]; now rewrite Hn).
  now rewrite endsWithSlash_solid.
Qed.

(** The parent directory of a resolved path. *)
Lemma dirname_safeResolve (dir oldP : str) :
  isAbsolute dir = true ->
  exists parent : list str,
    forallb plainb parent = true
    /\ dirname (safeResolve dir oldP) = slash :: body parent false.
Proof.
  intros Hd.
  destruct (safeResolve_absolute dir oldP Hd) as [_ (segs & t & Hp & E)].
  exists (removelast segs). split.
  - apply forallb_forall. intros x Hx.
    rewrite forallb_forall in Hp. apply Hp.
    destruct segs as [|y l] using rev_ind; [contradiction|].
    rewrite removelast_last in Hx. apply in_or_app. now left.
  - rewrite E. cbn [app]. now apply dirname_canonical.
Qed.

(** C8, as amended -- Rename stays in place for a plain new name.  With
    both arguments present, whatever the new name is, [renameFile] asks
    the filesystem once, to rename the resolved old path to the new name
    joined onto the parent directory of the resolved old path, and prints
    [Operation failed] when the filesystem rejects that.  Under an
    absolute working directory that destination is the normalized text of
    parent, [/] and new name; when the new name is a single plain segment,
    it is a direct child of the parent directory of the resolved old path,
    under the new name. *)
Theorem rename_in_place_for_plain_name (w : World FS) (oldP newName : str) :
  truthy oldP = true ->
  truthy newName = true ->
  let src := safeResolve (cwd w) oldP in
  let dest := join [dirname src; newName] in
  renameFile io (Some oldP) newName w
  = match rename io (fs w) src dest with
    | Some renamed => (Done tt, invoked (Rename src dest) renamed w)
    | None => (Done tt, failed (invoked (Rename src dest) (fs w) w))
    end
  /\ calls (snd (renameFile io (Some oldP) newName w))
     = calls w ++ [Rename src dest]
  /\ (isAbsolute (cwd w) = true ->
      dest = normalize (dirname src ++ slash :: newName)
      /\ (plainb newName = true ->
          dirname dest = dirname src /\ basename dest = newName)).
Proof.
  intros Ho Hn src dest. split; [|split].
  - unfold renameFile. rewrite Ho, Hn. cbn [negb orb].
    unfold bind, get_cwd, try_catch, command, operationFailed, emit.
    fold src. fold dest.
    destruct (rename io (fs w) src dest); reflexivity.
  - now apply renameFile_calls.
  - intros Hd.
    destruct (dirname_safeResolve (cwd w) oldP Hd) as (parent & Hp & Esrc).
    fold src in Esrc. split.
    + unfold dest. apply join_absolute; [now rewrite Esrc|assumption].
    + intros Hplain.
      destruct (rename_dest_plain (cwd w) oldP newName Hd Hplain)
        as (parent' & Hp' & Esrc' & Edest).
      unfold rename_dest in Edest. fold src in Esrc', Edest.
      fold dest in Edest. split.
      * rewrite Edest, Esrc'.
        rewrite dirname_canonical, removelast_last; [reflexivity|].
        rewrite forallb_app, Hp'. cbn [forallb]. now rewrite Hplain.
      * rewrite Edest. now apply basename_canonical.
Qed.

(** The target of a creation, segment-wise: the segments of the argument
    follow those of the working directory. *)
Lemma create_target_canonical (dsegs asegs : list str) (t t' : bool) :
  forallb plainb dsegs = true -> forallb plainb asegs = true ->
  create_target (slash :: body dsegs t) (slash :: body asegs t')
  = slash :: body (dsegs ++ asegs) (endsWithSlash (slash :: body asegs t')).
Proof.
  intros Hd Ha. unfold create_target.
  rewrite join_canonical by auto.
  now rewrite collapse_split_canonical, rev_involutive.
Qed.

Lemma body_length (segs : list str) (t : bool) :
  List.length (body segs t)
  = match segs with
    | [] => 0
    | _ :: _ =>
        List.length (List.concat segs) + (List.length segs - 1)
        + (if t then 1 else 0)
    end.
Proof.
  destruct segs as [|x l]; [reflexivity|].
  unfold body. rewrite length_app.
  assert (E : List.length (joinWith [slash] (x :: l))
              = List.length (List.concat (x :: l)) + (List.length (x :: l) - 1)).
  { clear t. revert x. induction l as [|y l IH]; intros x.
    - simpl. rewrite app_nil_r. lia.
    - rewrite joinWith_cons2, !length_app, IH.
      cbn [List.concat List.length]. rewrite !length_app. lia. }
  rewrite E. destruct t; simpl; lia.
Qed.

(** C10, as amended -- [addFile] and [makeDir] do not go through the
    resolver.  For every argument that is not empty, relative or absolute,
    the one capability they invoke is handed the raw argument joined onto
    the working directory; under an absolute working directory that is
    the normalized text of working directory, [/] and argument.  When the
    argument is a normalized absolute path, the target has the segments of
    the working directory before those of the argument: it is the absolute
    location the argument names when the working directory is the root,
    and another location when the working directory is a proper
    descendant of the root. *)
Theorem create_joins_onto_cwd
  (w : World FS) (arg : str) (dsegs asegs : list str) (t t' : bool) :
  truthy arg = true ->
  let target := join [cwd w; arg] in
  calls (snd (addFile io arg w)) = calls w ++ [OpenWx target]
  /\ calls (snd (makeDir io arg w)) = calls w ++ [Mkdir target]
  /\ (isAbsolute (cwd w) = true ->
      target = normalize (cwd w ++ slash :: arg))
  /\ (forallb plainb dsegs = true ->
      forallb plainb asegs = true ->
      cwd w = slash :: body dsegs t ->
      arg = slash :: body asegs t' ->
      target = slash :: body (dsegs ++ asegs) (endsWithSlash arg)
      /\ (dsegs = [] -> target = normalize arg)
      /\ (dsegs <> [] -> target <> normalize arg)).
Proof.
  intros Ht target.
  split; [now apply addFile_calls|].
  split; [now apply makeDir_calls|].
  split; [intros Hd; now apply join_absolute|].
  intros Hd Ha Ec Earg.
  assert (Etarget : target
                    = slash :: body (dsegs ++ asegs) (endsWithSlash arg)).
  { unfold target. rewrite Ec, Earg.
    now apply (create_target_canonical dsegs asegs t t'). }
  split; [assumption|]. split.
  - intros ->. rewrite Etarget, Earg, normalize_canonical by assumption.
    cbn [app]. destruct asegs as [|a l]; [reflexivity|].
    now rewrite endsWithSlash_body by (auto; discriminate).
  - intros Hne.
    rewrite Etarget, Earg, normalize_canonical by assumption.
    intros E. apply (f_equal (@List.length ascii)) in E.
    cbn [List.length] in E. rewrite !body_length in E.
    destruct dsegs as [|d ds]; [congruence|].
    assert (Hd1 : 1 <= List.length d).
    { cbn [forallb] in Hd. apply andb_true_iff in Hd as [Hd _].
      apply plainb_inv in Hd as (Hd & _). destruct d; [discriminate|].
      simpl. lia. }
    destruct asegs as [|a l].
    + cbn [app List.concat List.length] in E. rewrite length_app in E.
      destruct (endsWithSlash (slash :: body [] t')); lia.
    + rewrite endsWithSlash_body in E by (auto; discriminate).
      cbn [app List.concat List.length] in E.
      rewrite !length_app, concat_app, !length_app in E.
      cbn [List.concat List.length] in E. rewrite !length_app in E.
      destruct t'; lia.
Qed.

End Targets.

(** The rename asked for by [rn a.txt ../b.txt] in [/home/u] leaves the
    parent directory of the old path. *)
Lemma rename_leaves_parent :
  calls (snd (renameFile Demo.io (Some (lit "a.txt")) (lit "../b.txt")
                Demo.world0))
  = [Rename (lit "/home/u/a.txt") (lit "/home/b.txt")]
  /\ dirname (rename_dest (lit "/home/u") (lit "a.txt") (lit "../b.txt"))
     <> dirname (safeResolve (lit "/home/u") (lit "a.txt")).
Proof. split; [reflexivity|discriminate]. Qed.

Lemma rename_in_place_for_plain_name_witness :
  calls (snd (renameFile Demo.io (Some (lit "a.txt")) (lit "b c.txt")
                Demo.world0))
  = [Rename (lit "/home/u/a.txt") (lit "/home/u/b c.txt")]
  /\ dirname (rename_dest (lit "/home/u") (lit "a.txt") (lit "b c.txt"))
     = dirname (safeResolve (lit "/home/u") (lit "a.txt"))
  /\ basename (rename_dest (lit "/home/u") (lit "a.txt") (lit "b c.txt"))
     = lit "b c.txt".
Proof.
  destruct (rename_in_place_for_plain_name _ Demo.io Demo.world0
              (lit "a.txt") (lit "b c.txt") eq_refl eq_refl)
    as (_ & Hcalls & Hplace).
  destruct (Hplace eq_refl) as (_ & Hplain).
  split; [exact Hcalls|exact (Hplain eq_refl)].
Defined.

(** In the root directory, [add /tmp/x] creates the entry at the absolute
    location itself. *)
Lemma create_at_absolute_location :
  calls (snd (addFile Demo.io (lit "/tmp/x") Demo.at_root))
  = [OpenWx (lit "/tmp/x")]
  /\ isAbsolute (cwd Demo.at_root) = true
  /\ create_target (cwd Demo.at_root) (lit "/tmp/x") = normalize (lit "/tmp/x").
Proof. repeat split. Qed.

Lemma create_joins_onto_cwd_witness :
  calls (snd (addFile Demo.io (lit "/tmp/x") Demo.world0))
  = [OpenWx (lit "/home/u/tmp/x")]
  /\ create_target (lit "/home/u") (lit "/tmp/x") <> normalize (lit "/tmp/x").
Proof.
  destruct (create_joins_onto_cwd _ Demo.io Demo.world0 (lit "/tmp/x")
              [lit "home"; lit "u"] [lit "tmp"; lit "x"] false false
              eq_refl)
    as (Hadd & _ & _ & Hcanonical).
  destruct (Hcanonical eq_refl eq_refl eq_refl eq_refl) as (_ & _ & Hne).
  split; [exact Hadd|apply Hne; discriminate].
Defined.

(* ===================================================================== *)
(** ** Confinement of the working directory *)
(* ===================================================================== *)

Section Confinement.

Variable FS : Type.
Variable io : Collab FS.

Lemma goUp_run (w : World FS) :
  goUp w
  = (Done tt,
     if str_eqb (cwd w) (parse_root (cwd w)) then w
     else {| cwd := dirname (cwd w); fs := fs w; out := out w;
             calls := calls w |}).
Proof.
  unfold goUp, bind, get_cwd.
  destruct (str_eqb (cwd w) (parse_root (cwd w))); reflexivity.
Qed.

Lemma goUp_below (w : World FS) :
  below [slash] (cwd w) -> below [slash] (cwd (snd (goUp w))).
Proof.
  intros Hb. rewrite goUp_run. cbn [snd].
  destruct (str_eqb (cwd w) (parse_root (cwd w))); [assumption|].
  destruct Hb as (segs & t & Hp & E). cbn [cwd]. rewrite E. cbn [app].
  rewrite dirname_canonical by assumption.
  exists (removelast segs), false. split; [|reflexivity].
  apply forallb_forall. intros x Hx. rewrite forallb_forall in Hp. apply Hp.
  destruct segs as [|y l] using rev_ind; [contradiction|].
  rewrite removelast_last in Hx. apply in_or_app. now left.
Qed.

(** [changeDir] returns, and either leaves the working directory or moves
    it to the resolved argument. *)
Lemma changeDir_run (arg : str) (w : World FS) :
  fst (changeDir io arg w) = Done tt
  /\ (cwd (snd (changeDir io arg w)) = cwd w
      \/ cwd (snd (changeDir io arg w)) = safeResolve (cwd w) arg).
Proof.
  unfold changeDir.
  destruct (negb (truthy arg)); [split; [reflexivity|now left]|].
  unfold bind, get_cwd, try_catch, fs_stat, query, invalidInput,
    operationFailed, emit, set_cwd, ret.
  destruct (stat io (fs w) (safeResolve (cwd w) arg)) as [st|];
    [|split; [reflexivity|now left]].
  destruct (negb (isDirectory st)); [split; [reflexivity|now left]|].
  cbn [cwd invoked].
  destruct (negb (startsWith (safeResolve (cwd w) arg) (parse_root (cwd w))));
    [split; [reflexivity|now left]|].
  split; [reflexivity|now right].
Qed.

Lemma changeDir_below (arg : str) (w : World FS) :
  below [slash] (cwd w) -> below [slash] (cwd (snd (changeDir io arg w))).
Proof.
  intros Hb. destruct (changeDir_run arg w) as [_ [E|E]]; rewrite E.
  - assumption.
  - apply safeResolve_absolute. now apply below_root_absolute.
Qed.

Lemma nav_settles (o : Nav) (w : World FS) : fst (nav io o w) = Done tt.
Proof.
  destruct o as [|arg]; cbn [nav].
  - now rewrite goUp_run.
  - apply changeDir_run.
Qed.

Lemma nav_trace_below (ops : list Nav) (w : World FS) :
  below [slash] (cwd w) ->
  Forall (fun w' => below [slash] (cwd w')) (nav_trace io ops w).
Proof.
  revert w. induction ops as [|o ops IH]; intros w Hb; cbn [nav_trace].
  - constructor.
  - assert (Hb' : below [slash] (cwd (snd (nav io o w)))).
    { destruct o as [|arg]; cbn [nav];
        [now apply goUp_below|now apply changeDir_below]. }
    constructor; [assumption|now apply IH].
Qed.

(** C1 -- Root-confinement invariant.  Start from an absolute working
    directory that is [rootOfStart] or a descendant of it.  Whatever the
    filesystem answers, every navigate-up and change-dir transition
    returns, and after every prefix of any sequence of them the working
    directory is [rootOfStart] or a descendant of it.  Navigating up from
    a working directory that equals its root leaves it unchanged. *)
Theorem confinement_invariant (ops : list Nav) (w0 : World FS) :
  let rootOfStart := parse_root (cwd w0) in
  isAbsolute (cwd w0) = true ->
  below rootOfStart (cwd w0) ->
  Forall (fun w => below rootOfStart (cwd w)) (nav_trace io ops w0)
  /\ (forall o w, fst (nav io o w) = Done tt)
  /\ (forall w : World FS,
        cwd w = parse_root (cwd w) -> cwd (snd (goUp w)) = cwd w).
Proof.
  intros rootOfStart Habs Hb. split; [|split].
  - unfold rootOfStart, parse_root in *. rewrite Habs in *.
    now apply nav_trace_below.
  - apply nav_settles.
  - intros w E. rewrite goUp_run. cbn [snd].
    assert (Heq : str_eqb (cwd w) (parse_root (cwd w)) = true)
      by (apply str_eqb_eq; exact E).
    now rewrite Heq.
Qed.

End Confinement.

Lemma confinement_invariant_witness :
  Forall (fun w => below [slash] (cwd w))
    (nav_trace Demo.io
       [NavCd (lit "../../../.."); NavUp; NavCd (lit "/tmp/../home/u/.");
        NavCd (lit "nowhere"); NavUp; NavUp; NavUp]
       Demo.world0)
  /\ cwd (snd (goUp Demo.at_root)) = cwd Demo.at_root.
Proof.
  destruct (confinement_invariant Demo.Disk Demo.io
              [NavCd (lit "../../../.."); NavUp;
               NavCd (lit "/tmp/../home/u/.");
               NavCd (lit "nowhere"); NavUp; NavUp; NavUp]
              Demo.world0 eq_refl
              (ex_intro _ [lit "home"; lit "u"]
                 (ex_intro _ false (conj eq_refl eq_refl))))
    as (Htrace & _ & Hroot).
  split; [exact Htrace|exact (Hroot Demo.at_root eq_refl)].
Defined.

(* ===================================================================== *)
(** ** What the handlers leave alone *)
(* ===================================================================== *)

(** The handlers are built from a few combinators; a relation between the
    world before and after that every primitive respects is respected by
    the handlers. *)
Section Steps.

Variable FS : Type.
Variable io : Collab FS.
Variable host : Host.

Variable R : World FS -> World FS -> Prop.
Variable ok : Ending -> Prop.

Hypothesis R_refl : forall w, R w w.
Hypothesis R_trans : forall a b c, R a b -> R b c -> R a c.
Hypothesis R_invoked : forall c f w, R w (invoked c f w).
Hypothesis R_print :
  forall o w, is_cwd_line o = false ->
    R w {| cwd := cwd w; fs := fs w; out := out w ++ [o]; calls := calls w |}.
Hypothesis ok_done : ok EDone.
Hypothesis ok_thrown : ok EThrown.

Lemma steps_ret (A : Type) (a : A) : steps R ok (ret (FS := FS) a).
Proof. intros w. split; [apply R_refl|exact ok_done]. Qed.

Lemma steps_throw (A : Type) : steps R ok (throw (FS := FS) (A := A)).
Proof. intros w. split; [apply R_refl|exact ok_thrown]. Qed.

Lemma steps_never (A : Type) :
  ok EUnsettled -> steps R ok (never (FS := FS) (A := A)).
Proof. intros H w. split; [apply R_refl|exact H]. Qed.

Lemma steps_get_cwd : steps R ok (get_cwd (FS := FS)).
Proof. intros w. split; [apply R_refl|exact ok_done]. Qed.

Lemma steps_set_cwd (p : str) :
  (forall w, R w {| cwd := p; fs := fs w; out := out w; calls := calls w |}) ->
  steps R ok (set_cwd (FS := FS) p).
Proof. intros H w. split; [apply H|exact ok_done]. Qed.

Lemma steps_emit (o : Out) :
  is_cwd_line o = false -> steps R ok (emit (FS := FS) o).
Proof. intros H w. split; [now apply R_print|exact ok_done]. Qed.

Lemma steps_query (A : Type) (c : FsCall) (f : FS -> option A) :
  steps R ok (query c f).
Proof.
  intros w. unfold query.
  destruct (f (fs w)); (split; [apply R_invoked|assumption]).
Qed.

Lemma steps_command (c : FsCall) (f : FS -> option FS) :
  steps R ok (command c f).
Proof.
  intros w. unfold command.
  destruct (f (fs w)); (split; [apply R_invoked|assumption]).
Qed.

Lemma steps_fs_stat (p : str) : steps R ok (fs_stat io p).
Proof. apply steps_query. Qed.

Lemma steps_fs_stat_or_null (p : str) : steps R ok (fs_stat_or_null io p).
Proof. intros w. split; [apply R_invoked|exact ok_done]. Qed.

Lemma steps_fs_read_stream (p : str) : steps R ok (fs_read_stream io p).
Proof. intros w. split; [apply R_invoked|exact ok_done]. Qed.

Lemma steps_fs_pipeline (src : str) (stage : Stage) (dest : str) :
  steps R ok (fs_pipeline io src stage dest).
Proof.
  intros w. unfold fs_pipeline. split; [apply R_invoked|].
  cbn [fst]. destruct (snd (pipeline io (fs w) src stage dest)); assumption.
Qed.

Lemma steps_fs_codec_pipeline (src : str) (stage : Stage) (dest : str) :
  ok ECrashed -> steps R ok (fs_codec_pipeline io src stage dest).
Proof.
  intros H w. unfold fs_codec_pipeline.
  destruct (codec_error io (fs w) src stage dest).
  - split; [apply R_invoked|exact H].
  - apply steps_fs_pipeline.
Qed.

Lemma steps_bind (A B : Type) (m : M FS A) (k : A -> M FS B) :
  steps R ok m -> (forall a, steps R ok (k a)) -> steps R ok (bind m k).
Proof.
  intros Hm Hk w. unfold bind. specialize (Hm w).
  destruct (m w) as [[a| | | |] w1]; cbn [fst snd ending] in *;
    try (split; tauto).
  destruct Hm as [HR _]. specialize (Hk a w1) as [HR' Hok].
  split; [now apply R_trans with w1|assumption].
Qed.

Lemma steps_try_catch (A : Type) (m h : M FS A) :
  steps R ok m -> steps R ok h -> steps R ok (try_catch m h).
Proof.
  intros Hm Hh w. unfold try_catch. specialize (Hm w).
  destruct (m w) as [[a| | | |] w1]; cbn [fst snd ending] in *;
    try (split; tauto).
  destruct Hm as [HR _]. specialize (Hh w1) as [HR' Hok].
  split; [now apply R_trans with w1|assumption].
Qed.

Lemma steps_invalidInput : steps R ok (invalidInput (FS := FS)).
Proof. now apply steps_emit. Qed.

Lemma steps_operationFailed : steps R ok (operationFailed (FS := FS)).
Proof. now apply steps_emit. Qed.

Lemma steps_console_log (s : str) : steps R ok (console_log (FS := FS) s).
Proof. now apply steps_emit. Qed.

Lemma steps_console_log_each (lines : list str) :
  steps R ok (console_log_each (FS := FS) lines).
Proof.
  induction lines as [|l lines IH]; cbn [console_log_each].
  - apply steps_ret.
  - apply steps_bind; [apply steps_console_log|intros _; exact IH].
Qed.

Create HintDb steps.

Hint Resolve steps_ret steps_throw steps_never steps_get_cwd steps_set_cwd
  steps_query steps_command steps_fs_stat steps_fs_stat_or_null
  steps_fs_read_stream steps_fs_pipeline steps_invalidInput
  steps_operationFailed steps_console_log steps_console_log_each : steps.

(** One step of a proof that a handler respects the relation: follow the
    shape of the handler. *)
Ltac steps_step :=
  match goal with
  | |- steps _ _ (bind _ _) => apply steps_bind; [|intros ?]
  | |- steps _ _ (try_catch _ _) => apply steps_try_catch
  | |- steps _ _ (if ?b then _ else _) => destruct b
  | |- steps _ _ (match ?o with _ => _ end) => destruct o
  | |- steps _ _ _ => solve [eauto with steps]
  end.

Ltac steps_auto := cbv zeta; repeat steps_step.

Lemma steps_goUp : allows_set_cwd R -> steps R ok (goUp (FS := FS)).
Proof. intros H. unfold goUp. steps_auto. Qed.

Lemma steps_changeDir (arg : str) :
  allows_set_cwd R -> steps R ok (changeDir io arg).
Proof. intros H. unfold changeDir. steps_auto. Qed.

Lemma steps_listDir : steps R ok (listDir io host).
Proof. unfold listDir. steps_auto. Qed.

Lemma steps_catFile (arg : str) :
  ok EUnsettled -> steps R ok (catFile io arg).
Proof.
  intros H. unfold catFile. steps_auto. now apply steps_emit.
Qed.

Lemma steps_addFile (arg : str) : steps R ok (addFile io arg).
Proof. unfold addFile. steps_auto. Qed.

Lemma steps_makeDir (arg : str) : steps R ok (makeDir io arg).
Proof. unfold makeDir. steps_auto. Qed.

Lemma steps_renameFile (oldP : option str) (newName : str) :
  steps R ok (renameFile io oldP newName).
Proof. unfold renameFile. steps_auto. Qed.

Lemma steps_copyFile (srcArg : option str) (destDirArg : str) :
  steps R ok (copyFile io srcArg destDirArg).
Proof. unfold copyFile. steps_auto. Qed.

Lemma steps_moveFile (srcArg : option str) (destDirArg : str) :
  steps R ok (moveFile io srcArg destDirArg).
Proof. unfold moveFile. steps_auto. Qed.

Lemma steps_removeFile (arg : str) : steps R ok (removeFile io arg).
Proof. unfold removeFile. steps_auto. Qed.

Lemma steps_osInfo (option : option str) :
  steps R ok (osInfo (FS := FS) host option).
Proof. unfold osInfo. steps_auto. Qed.

Lemma steps_hashFile (arg : str) : steps R ok (hashFile io host arg).
Proof. unfold hashFile. steps_auto. Qed.

Lemma steps_codecFile (stage : Stage) (srcArg : option str) (destArg : str) :
  ok ECrashed -> steps R ok (codecFile io stage srcArg destArg).
Proof.
  intros H. unfold codecFile. steps_auto. now apply steps_fs_codec_pipeline.
Qed.

(** The dispatcher respects the relation, given what the handler it
    selects needs. *)
Lemma steps_dispatch (parts : list str) :
  (case_of (nth_error parts 0) = CaseCat -> ok EUnsettled) ->
  (case_of (nth_error parts 0) = CaseCompress
   \/ case_of (nth_error parts 0) = CaseDecompress -> ok ECrashed) ->
  (case_of (nth_error parts 0) = CaseUp
   \/ case_of (nth_error parts 0) = CaseCd -> allows_set_cwd R) ->
  steps R ok (dispatch io host parts).
Proof.
  intros Hcat Hcodec Hnav.
  unfold dispatch, compressFile, decompressFile. cbv zeta.
  destruct (case_of (nth_error parts 0)).
  - apply steps_goUp. apply Hnav. now left.
  - apply steps_changeDir. apply Hnav. now right.
  - apply steps_listDir.
  - apply steps_catFile. now apply Hcat.
  - apply steps_addFile.
  - apply steps_makeDir.
  - apply steps_renameFile.
  - apply steps_copyFile.
  - apply steps_moveFile.
  - apply steps_removeFile.
  - apply steps_osInfo.
  - apply steps_hashFile.
  - apply steps_codecFile. apply Hcodec. now left.
  - apply steps_codecFile. apply Hcodec. now right.
  - apply steps_invalidInput.
Qed.

End Steps.

(* ===================================================================== *)
(** ** The dispatcher *)
(* ===================================================================== *)

Section Dispatcher.

Variable FS : Type.
Variable io : Collab FS.
Variable host : Host.

(** [try { m } catch { operationFailed() } finally { printCwd() }], by the
    way [m] ends. *)
Lemma report_run (m : M FS unit) (w : World FS) :
  try_finally (try_catch m (operationFailed (FS := FS)))
    (printCwd (FS := FS)) w
  = match m w with
    | (Done a, w1) => (Done a, reported w1)
    | (Thrown, w1) => (Done tt, reported (failed w1))
    | (Unsettled, w1) => (Unsettled, w1)
    | (Exited, w1) => (Exited, w1)
    | (Crashed, w1) => (Crashed, w1)
    end.
Proof.
  unfold try_finally, try_catch.
  destruct (m w) as [[a| | | |] w1]; reflexivity.
Qed.

(** A line that selects a case of the switch is neither blank nor an exit
    keyword. *)
Lemma selected_line_dispatched (trimmed : str) :
  case_of (nth_error (parts_of trimmed) 0) <> CaseDefault ->
  truthy trimmed = true /\ is_exit_keyword trimmed = false.
Proof.
  intros H. split.
  - destruct trimmed; [now contradiction H|reflexivity].
  - destruct (is_exit_keyword trimmed) eqn:E; [|reflexivity].
    unfold is_exit_keyword in E. apply orb_true_iff in E as [E|E];
      apply str_eqb_eq in E; subst trimmed; now contradiction H.
Qed.

Lemma handleLine_dispatched (line : str) (w : World FS) :
  truthy (trim line) = true -> is_exit_keyword (trim line) = false ->
  handleLine io host line w
  = try_finally
      (try_catch (dispatch io host (parts_of (trim line)))
         (operationFailed (FS := FS)))
      (printCwd (FS := FS)) w.
Proof.
  intros Ht He. unfold handleLine. cbv zeta. now rewrite Ht, He.
Qed.

(** The tokens of a line are not empty. *)
Lemma parts_of_truthy (trimmed : str) :
  forallb truthy (parts_of trimmed) = true.
Proof.
  unfold parts_of. apply forallb_forall. intros x Hx.
  now apply filter_In in Hx.
Qed.

End Dispatcher.

(* ===================================================================== *)
(** ** The frame of the working directory *)
(* ===================================================================== *)

Section CwdFrame.

Variable FS : Type.
Variable io : Collab FS.
Variable host : Host.

Lemma dispatch_same_cwd (parts : list str) :
  case_of (nth_error parts 0) <> CaseUp ->
  case_of (nth_error parts 0) <> CaseCd ->
  steps (same_cwd (FS := FS)) (fun _ => True) (dispatch io host parts).
Proof.
  intros Hup Hcd. apply steps_dispatch; unfold same_cwd; auto.
  - intros a b c Hab Hbc. congruence.
  - intros [H|H]; contradiction.
Qed.

Lemma changeDir_no_directory (arg : str) (w : World FS) :
  stat io (fs w) (safeResolve (cwd w) arg) = None
  \/ (exists k, stat io (fs w) (safeResolve (cwd w) arg) = Some k
                /\ isDirectory k = false) ->
  cwd (snd (changeDir io arg w)) = cwd w.
Proof.
  intros H. unfold changeDir.
  destruct (negb (truthy arg)); [reflexivity|].
  unfold bind, get_cwd, try_catch, fs_stat, query, invalidInput,
    operationFailed, emit.
  destruct H as [E|(k & E & Hk)]; rewrite E; [reflexivity|].
  now rewrite Hk.
Qed.

Lemma handleLine_same_cwd (line : str) (w : World FS) :
  case_of (nth_error (parts_of (trim line)) 0) <> CaseUp ->
  case_of (nth_error (parts_of (trim line)) 0) <> CaseCd ->
  cwd (snd (handleLine io host line w)) = cwd w.
Proof.
  intros Hup Hcd. unfold handleLine. cbv zeta.
  destruct (negb (truthy (trim line))); [reflexivity|].
  destruct (is_exit_keyword (trim line)); [reflexivity|].
  rewrite report_run.
  destruct (dispatch_same_cwd (parts_of (trim line)) Hup Hcd w) as [Hc _].
  unfold same_cwd in Hc.
  destruct (dispatch io host (parts_of (trim line)) w) as [[[]| | | |] w1];
    exact Hc.
Qed.

(** X8 -- Confinement, line by line.  Whatever the line is, whatever the
    filesystem answers and however the handler ends, the handler of a
    line that is started below the root leaves the working directory at
    the root or below it. *)
Lemma handleLine_below (line : str) (w : World FS) :
  below [slash] (cwd w) ->
  below [slash] (cwd (snd (handleLine io host line w))).
Proof.
  intros Hb.
  destruct (case_of (nth_error (parts_of (trim line)) 0)) eqn:Hcase;
    try (rewrite handleLine_same_cwd by (rewrite Hcase; discriminate);
         exact Hb).
  - unfold handleLine. cbv zeta.
    destruct (negb (truthy (trim line))); [exact Hb|].
    destruct (is_exit_keyword (trim line)); [exact Hb|].
    rewrite report_run. unfold dispatch. cbv zeta. rewrite Hcase.
    pose proof (goUp_below FS w Hb) as Hup. rewrite goUp_run in *.
    exact Hup.
  - unfold handleLine. cbv zeta.
    destruct (negb (truthy (trim line))); [exact Hb|].
    destruct (is_exit_keyword (trim line)); [exact Hb|].
    rewrite report_run. unfold dispatch. cbv zeta. rewrite Hcase.
    pose proof (changeDir_below FS io
                  (rest_from 1 (parts_of (trim line))) w Hb) as Hcd.
    destruct (changeDir_run FS io
                (rest_from 1 (parts_of (trim line))) w) as [Hdone _].
    destruct (changeDir io (rest_from 1 (parts_of (trim line))) w)
      as [r w1].
    cbn [fst snd] in *. subst r. exact Hcd.
Qed.

(** C4 -- Frame of the cwd state.  A line that selects neither navigate-up
    nor change-dir (any other command, an unrecognized one, a blank line,
    an exit keyword) leaves the working directory unchanged, however its
    handler ends; and change-dir leaves it unchanged whenever its target
    does not exist or is not a directory. *)
Theorem cwd_written_only_by_navigation (line arg : str) (w : World FS) :
  let parts := parts_of (trim line) in
  (case_of (nth_error parts 0) <> CaseUp ->
   case_of (nth_error parts 0) <> CaseCd ->
   cwd (snd (handleLine io host line w)) = cwd w)
  /\ (stat io (fs w) (safeResolve (cwd w) arg) = None
      \/ (exists k, stat io (fs w) (safeResolve (cwd w) arg) = Some k
                    /\ isDirectory k = false) ->
      cwd (snd (changeDir io arg w)) = cwd w).
Proof.
  intros parts. split.
  - apply handleLine_same_cwd.
  - apply changeDir_no_directory.
Qed.

End CwdFrame.

Lemma handleLine_below_witness :
  below [slash]
    (cwd (snd (handleLine Demo.io Demo.host (lit "cd ../../../../tmp/.")
                 Demo.world0))).
Proof.
  apply (handleLine_below Demo.Disk Demo.io Demo.host
           (lit "cd ../../../../tmp/.") Demo.world0).
  exists [lit "home"; lit "u"], false. split; reflexivity.
Defined.

Lemma cwd_written_only_by_navigation_witness :
  cwd (snd (handleLine Demo.io Demo.host (lit "mv a.txt /tmp") Demo.world0))
  = cwd Demo.world0
  /\ cwd (snd (changeDir Demo.io (lit "a.txt") Demo.world0))
     = cwd Demo.world0.
Proof.
  destruct (cwd_written_only_by_navigation Demo.Disk Demo.io Demo.host
              (lit "mv a.txt /tmp") (lit "a.txt") Demo.world0)
    as [Hline Hcd].
  split.
  - apply Hline; discriminate.
  - apply Hcd. right. exists KFile. split; reflexivity.
Defined.

(* ===================================================================== *)
(** ** Argument validation *)
(* ===================================================================== *)

Section Arity.

Variable FS : Type.
Variable io : Collab FS.
Variable host : Host.

(** The world after [invalidInput]. *)
Lemma invalidInput_run (w : World FS) :
  invalidInput w
  = (Done tt,
     {| cwd := cwd w; fs := fs w; out := out w ++ [OutInvalid];
        calls := calls w |}).
Proof. reflexivity. Qed.

(** With too few tokens the selected handler prints [Invalid input] and
    does nothing else. *)
Lemma dispatch_too_few (cmd : str) (args : list str) (w : World FS) :
  forallb truthy args = true ->
  List.length args < required_args (case_of (Some cmd)) ->
  dispatch io host (cmd :: args) w = invalidInput w.
Proof.
  intros Ht Hlen. unfold dispatch. cbv zeta. cbn [nth_error].
  destruct (case_of (Some cmd)); cbn [required_args] in Hlen; try lia.
  all: destruct args as [|a args]; [reflexivity|].
  all: cbn [List.length] in Hlen; try lia.
  all: destruct args as [|b args]; [|cbn [List.length] in Hlen; lia].
  all: cbn [forallb] in Ht; apply andb_true_iff in Ht as [Ha _].
  all: unfold compressFile, decompressFile, renameFile, copyFile, moveFile,
         codecFile, rest_from, slice_from.
  all: cbn [nth_error skipn joinWith truthy negb].
  all: now rewrite orb_true_r.
Qed.

(** C7 -- Arity validation precedes I/O.  A line with fewer argument
    tokens than the selected handler requires yields InvalidInput: the
    handler returns, [Invalid input] and the cwd line are all that is
    printed, no filesystem capability is invoked and the filesystem is
    unchanged. *)
Theorem arity_checked_before_io (line : str) (w : World FS) :
  let parts := parts_of (trim line) in
  List.length (tl parts) < required_args (case_of (nth_error parts 0)) ->
  handleLine io host line w
  = (Done tt,
     {| cwd := cwd w; fs := fs w;
        out := out w ++ [OutInvalid; OutCwd (cwd w)];
        calls := calls w |}).
Proof.
  intros parts Hlen.
  assert (Hsel : case_of (nth_error parts 0) <> CaseDefault).
  { intros E. rewrite E in Hlen. cbn [required_args] in Hlen. lia. }
  destruct (selected_line_dispatched (trim line) Hsel) as [Ht He].
  rewrite handleLine_dispatched, report_run by assumption.
  pose proof (parts_of_truthy (trim line)) as Hparts. fold parts in Hparts.
  fold parts. destruct parts as [|cmd args]; [now contradiction Hsel|].
  cbn [forallb] in Hparts. apply andb_true_iff in Hparts as [_ Hargs].
  cbn [tl nth_error] in Hlen.
  rewrite dispatch_too_few, invalidInput_run by assumption.
  unfold reported. cbn [cwd fs out calls].
  now rewrite <- app_assoc.
Qed.

End Arity.

Lemma arity_checked_before_io_witness :
  handleLine Demo.io Demo.host (lit "  cp   a.txt  ") Demo.world0
  = (Done tt,
     {| cwd := lit "/home/u"; fs := Demo.disk0;
        out := [OutInvalid; OutCwd (lit "/home/u")];
        calls := [] |}).
Proof.
  apply (arity_checked_before_io Demo.Disk Demo.io Demo.host
           (lit "  cp   a.txt  ") Demo.world0).
  vm_compute. lia.
Defined.

(* ===================================================================== *)
(** ** Missing targets *)
(* ===================================================================== *)

Section MissingTarget.

Variable FS : Type.
Variable io : Collab FS.
Variable host : Host.

(** C2, as amended -- A missing target is an OperationFailed.  For
    change-dir, read-file, delete and hash with a path argument, when the
    filesystem reports no entry at the resolved path ([stat] rejects), the
    handler prints the literal [Operation failed] line, not
    [Invalid input], followed by the cwd line; [stat] is the only
    capability invoked and nothing else changes. *)
Theorem missing_target_operation_failed
  (op : TargetOp) (line : str) (w : World FS) :
  let parts := parts_of (trim line) in
  let arg := rest_from 1 parts in
  let target := safeResolve (cwd w) arg in
  case_of (nth_error parts 0) = target_case op ->
  truthy arg = true ->
  stat io (fs w) target = None ->
  handleLine io host line w
  = (Done tt,
     {| cwd := cwd w; fs := fs w;
        out := out w ++ [OutFailed; OutCwd (cwd w)];
        calls := calls w ++ [Stat target] |})
  /\ map render [OutFailed; OutCwd (cwd w)]
     = [lit "Operation failed"; lit "You are currently in " ++ cwd w].
Proof.
  intros parts arg target. subst arg target. intros Hcase Harg Hstat.
  split; [|reflexivity].
  assert (Hsel : case_of (nth_error parts 0) <> CaseDefault)
    by (rewrite Hcase; destruct op; discriminate).
  destruct (selected_line_dispatched (trim line) Hsel) as [Ht He].
  rewrite handleLine_dispatched, report_run by assumption.
  fold parts. unfold dispatch. cbv zeta. rewrite Hcase.
  destruct op; cbn [target_case];
    unfold changeDir, catFile, removeFile, hashFile;
    rewrite Harg; cbn [negb];
    unfold bind, get_cwd, try_catch, fs_stat, query;
    rewrite Hstat;
    unfold reported, operationFailed, emit, invoked; cbn [cwd fs out calls];
    now rewrite <- app_assoc.
Qed.

(** X6 -- A target of the wrong kind is an InvalidInput.  For change-dir,
    read-file, delete and hash, when [stat] reports an entry of the wrong
    kind at the resolved path, the handler prints [Invalid input] and the
    cwd line; [stat] is the only capability invoked. *)
Lemma wrong_kind_invalid_input
  (op : TargetOp) (line : str) (w : World FS) (k : Kind) :
  let parts := parts_of (trim line) in
  let arg := rest_from 1 parts in
  let target := safeResolve (cwd w) arg in
  case_of (nth_error parts 0) = target_case op ->
  truthy arg = true ->
  stat io (fs w) target = Some k ->
  wanted op k = false ->
  handleLine io host line w
  = (Done tt,
     {| cwd := cwd w; fs := fs w;
        out := out w ++ [OutInvalid; OutCwd (cwd w)];
        calls := calls w ++ [Stat target] |}).
Proof.
  intros parts arg target. subst arg target. intros Hcase Harg Hstat Hk.
  assert (Hsel : case_of (nth_error parts 0) <> CaseDefault)
    by (rewrite Hcase; destruct op; discriminate).
  destruct (selected_line_dispatched (trim line) Hsel) as [Ht He].
  rewrite handleLine_dispatched, report_run by assumption.
  fold parts. unfold dispatch. cbv zeta. rewrite Hcase.
  destruct op; cbn [target_case wanted] in *;
    unfold changeDir, catFile, removeFile, hashFile;
    rewrite Harg; cbn [negb];
    unfold bind, get_cwd, try_catch, fs_stat, query;
    rewrite Hstat, Hk; cbn [negb];
    unfold reported, invalidInput, emit, invoked; cbn [cwd fs out calls];
    now rewrite <- app_assoc.
Qed.

(** C3, where it fails -- The cwd line after a failed read.  When the read
    stream of [cat] emits an error, the handler prints what was read and
    [Operation failed], and the promise it awaits never settles: the
    dispatcher does not get to its [finally], and no cwd line is
    printed. *)
Theorem cat_stream_error_skips_cwd_line (line : str) (w : World FS) :
  let parts := parts_of (trim line) in
  let arg := rest_from 1 parts in
  let target := safeResolve (cwd w) arg in
  case_of (nth_error parts 0) = CaseCat ->
  truthy arg = true ->
  stat io (fs w) target = Some KFile ->
  snd (read_stream io (fs w) target) = false ->
  handleLine io host line w
  = (Unsettled,
     {| cwd := cwd w; fs := fs w;
        out := out w
               ++ [OutStdout (fst (read_stream io (fs w) target)); OutFailed];
        calls := calls w ++ [Stat target; ReadStream target] |})
  /\ existsb is_cwd_line
       [OutStdout (fst (read_stream io (fs w) target)); OutFailed] = false.
Proof.
  intros parts arg target. subst arg target. intros Hcase Harg Hstat Herr.
  split; [|reflexivity].
  assert (Hsel : case_of (nth_error parts 0) <> CaseDefault)
    by (rewrite Hcase; discriminate).
  destruct (selected_line_dispatched (trim line) Hsel) as [Ht He].
  rewrite handleLine_dispatched, report_run by assumption.
  fold parts. unfold dispatch. cbv zeta. rewrite Hcase.
  unfold catFile. rewrite Harg. cbn [negb].
  unfold bind, get_cwd, try_catch, fs_stat, query. rewrite Hstat.
  cbn [isFile negb]. unfold fs_read_stream. cbn [fs invoked].
  rewrite Herr.
  unfold operationFailed, never, emit, invoked. cbn [cwd fs out calls].
  now rewrite <- !app_assoc.
Qed.

End MissingTarget.

(** [rm nonexistent.txt] prints [Operation failed], not [Invalid input]. *)
Lemma rm_missing_prints_operation_failed :
  stat Demo.io (fs Demo.world0)
    (safeResolve (cwd Demo.world0) (lit "nonexistent.txt")) = None
  /\ map render
       (out (snd (handleLine Demo.io Demo.host (lit "rm nonexistent.txt")
                    Demo.world0)))
     = [lit "Operation failed"; lit "You are currently in /home/u"]
  /\ out (snd (handleLine Demo.io Demo.host (lit "rm nonexistent.txt")
                 Demo.world0))
     <> [OutInvalid; OutCwd (lit "/home/u")].
Proof. split; [reflexivity|split; [reflexivity|discriminate]]. Qed.

Lemma missing_target_operation_failed_witness :
  handleLine Demo.io Demo.host (lit "rm nonexistent.txt") Demo.world0
  = (Done tt,
     {| cwd := lit "/home/u"; fs := Demo.disk0;
        out := [OutFailed; OutCwd (lit "/home/u")];
        calls := [Stat (lit "/home/u/nonexistent.txt")] |}).
Proof.
  exact (proj1 (missing_target_operation_failed Demo.Disk Demo.io Demo.host
                  OnRm (lit "rm nonexistent.txt") Demo.world0
                  eq_refl eq_refl eq_refl)).
Defined.

Lemma cat_stream_error_skips_cwd_line_witness :
  handleLine Demo.io Demo.host (lit "cat secret.txt") Demo.world0
  = (Unsettled,
     {| cwd := lit "/home/u"; fs := Demo.disk0;
        out := [OutStdout []; OutFailed];
        calls := [Stat (lit "/home/u/secret.txt");
                  ReadStream (lit "/home/u/secret.txt")] |}).
Proof.
  exact (proj1 (cat_stream_error_skips_cwd_line Demo.Disk Demo.io Demo.host
                  (lit "cat secret.txt") Demo.world0
                  eq_refl eq_refl eq_refl eq_refl)).
Defined.

(* ===================================================================== *)
(** ** Reporting *)
(* ===================================================================== *)

Section Reporting.

Variable FS : Type.
Variable io : Collab FS.
Variable host : Host.

Lemma adds_no_cwd_line_refl (w : World FS) : adds_no_cwd_line w w.
Proof. exists []. split; [now rewrite app_nil_r|reflexivity]. Qed.

Lemma adds_no_cwd_line_trans (a b c : World FS) :
  adds_no_cwd_line a b -> adds_no_cwd_line b c -> adds_no_cwd_line a c.
Proof.
  intros (m1 & E1 & H1) (m2 & E2 & H2). exists (m1 ++ m2). split.
  - now rewrite E2, E1, app_assoc.
  - now rewrite existsb_app, H1, H2.
Qed.

Lemma dispatch_adds_no_cwd_line (parts : list str) :
  steps (adds_no_cwd_line (FS := FS)) does_not_exit (dispatch io host parts).
Proof.
  apply steps_dispatch; try discriminate.
  - apply adds_no_cwd_line_refl.
  - apply adds_no_cwd_line_trans.
  - intros c f w. exists []. split; [|reflexivity].
    cbn [invoked out]. now rewrite app_nil_r.
  - intros o w Ho. exists [o]. split; [reflexivity|].
    cbn [existsb]. now rewrite Ho.
  - intros _ p w. exists []. split; [|reflexivity].
    cbn [out]. now rewrite app_nil_r.
Qed.

Lemma dispatch_may_end (parts : list str) :
  steps (adds_no_cwd_line (FS := FS)) (may_end (case_of (nth_error parts 0)))
    (dispatch io host parts).
Proof.
  apply steps_dispatch; cbn [may_end]; auto.
  - apply adds_no_cwd_line_refl.
  - apply adds_no_cwd_line_trans.
  - intros c f w. exists []. split; [|reflexivity].
    cbn [invoked out]. now rewrite app_nil_r.
  - intros o w Ho. exists [o]. split; [reflexivity|].
    cbn [existsb]. now rewrite Ho.
  - intros _ p w. exists []. split; [|reflexivity].
    cbn [out]. now rewrite app_nil_r.
Qed.

(** X7 -- Uniform reporting, where it holds.  The handler of a dispatched
    line never exits and never lets an exception through.  When it
    returns, what it printed ends with the cwd line, and that is the only
    cwd line it printed.  It returns for every command but three: the
    promise of [cat] may stay unsettled, and on [compress] and
    [decompress] the process may die; no cwd line is printed then. *)
Lemma cwd_line_once_when_returned (line : str) (w : World FS) :
  truthy (trim line) = true ->
  is_exit_keyword (trim line) = false ->
  let r := handleLine io host line w in
  let c := case_of (nth_error (parts_of (trim line)) 0) in
  match fst r with
  | Done _ =>
      exists mid,
        out (snd r) = out w ++ mid ++ [OutCwd (cwd (snd r))]
        /\ existsb is_cwd_line mid = false
  | Unsettled => c = CaseCat /\ adds_no_cwd_line w (snd r)
  | Crashed =>
      (c = CaseCompress \/ c = CaseDecompress) /\ adds_no_cwd_line w (snd r)
  | Thrown | Exited => False
  end.
Proof.
  intros Ht He r c. subst r c.
  rewrite handleLine_dispatched, report_run by assumption.
  destruct (dispatch_may_end (parts_of (trim line)) w)
    as [Hadd Hend].
  destruct (dispatch io host (parts_of (trim line)) w) as [[[]| | | |] w1];
    cbn [fst snd ending may_end] in *; try (split; assumption);
    try contradiction.
  - destruct Hadd as (mid & Eout & Hmid).
    exists mid. split; [|assumption].
    cbn [reported out cwd]. now rewrite Eout, app_assoc.
  - destruct Hadd as (mid & Eout & Hmid).
    exists (mid ++ [OutFailed]). split.
    + cbn [reported failed out cwd]. now rewrite Eout, <- !app_assoc.
    + now rewrite existsb_app, Hmid.
Qed.

End Reporting.

(* ===================================================================== *)
(** ** Tokens *)
(* ===================================================================== *)

Section Tokens.

Lemma trimStart_ws (lead s : str) :
  forallb is_ws lead = true -> trimStart (lead ++ s) = trimStart s.
Proof.
  induction lead as [|c lead IH]; intros H; [reflexivity|].
  cbn [forallb] in H. apply andb_true_iff in H as [Hc Hl].
  cbn [app trimStart]. rewrite Hc. auto.
Qed.

Lemma trimStart_solid (c : ascii) (s : str) :
  is_ws c = false -> trimStart (c :: s) = c :: s.
Proof. intros H. cbn [trimStart]. now rewrite H. Qed.



Lemma trim_padded (lead trail line : str) :
  forallb is_ws lead = true -> forallb is_ws trail = true ->
  (exists c rest, line = c :: rest /\ is_ws c = false) ->
  (exists c front, line = front ++ [c] /\ is_ws c = false) ->
  trim (lead ++ line ++ trail) = line.
Proof.
  intros Hl Ht (c0 & rest & E0 & H0) (c1 & front & E1 & H1). unfold trim.
  rewrite trimStart_ws by assumption.
  rewrite E0 at 1. cbn [app]. rewrite trimStart_solid by assumption.
  change (c0 :: rest ++ trail) with ((c0 :: rest) ++ trail).
  rewrite <- E0, rev_app_distr, trimStart_ws.
  - rewrite E1 at 1. rewrite rev_app_distr. cbn [rev app].
    rewrite trimStart_solid by assumption.
    change (c1 :: rev front) with (rev [c1] ++ rev front).
    now rewrite <- rev_app_distr, rev_involutive.
  - apply forallb_forall. intros x Hx. apply in_rev in Hx.
    rewrite forallb_forall in Ht. auto.
Qed.

Lemma parts_of_spaces (n : nat) (s : str) :
  parts_of (repeat " "%char n ++ s) = parts_of s.
Proof.
  induction n as [|n IH]; [reflexivity|].
  unfold parts_of in *. cbn [repeat app split].
  rewrite Ascii.eqb_refl. cbn [filter truthy]. exact IH.
Qed.

(** What [trimStart] leaves does not start with white space. *)
Lemma trimStart_head (s : str) (c : ascii) (t : str) :
  trimStart s = c :: t -> is_ws c = false.
Proof.
  induction s as [|x s IH]; cbn [trimStart]; [discriminate|].
  destruct (is_ws x) eqn:E; [exact IH|].
  intros H. injection H as <- _. exact E.
Qed.

Lemma trimStart_suffix (s : str) : exists lead, s = lead ++ trimStart s.
Proof.
  induction s as [|c s [lead IH]]; [now exists []|].
  cbn [trimStart]. destruct (is_ws c).
  - exists (c :: lead). cbn [app]. now rewrite <- IH.
  - now exists [].
Qed.

(** A trimmed line that is not empty starts and ends with a code unit
    that is not white space. *)
Lemma trim_edges (s : str) :
  truthy (trim s) = true ->
  (exists c rest, trim s = c :: rest /\ is_ws c = false)
  /\ (exists c front, trim s = front ++ [c] /\ is_ws c = false).
Proof.
  unfold trim. intros H.
  destruct (trimStart (rev (trimStart s))) as [|c t] eqn:Eb; [discriminate|].
  pose proof (trimStart_head _ _ _ Eb) as Hc.
  split.
  - destruct (trimStart_suffix (rev (trimStart s))) as [lead El].
    rewrite Eb in El. apply (f_equal (@rev ascii)) in El.
    rewrite rev_involutive, rev_app_distr in El.
    destruct (rev (c :: t)) as [|c0 r0] eqn:Er.
    + apply (f_equal (@List.length ascii)) in Er.
      rewrite length_rev in Er. discriminate.
    + exists c0, r0. split; [reflexivity|].
      cbn [app] in El. exact (trimStart_head _ _ _ El).
  - exists c, (rev t). split; [reflexivity|assumption].
Qed.

Lemma token_inv (tok : str) :
  token tok = true ->
  (exists c rest, tok = c :: rest)
  /\ existsb (Ascii.eqb " "%char) tok = false.
Proof.
  unfold token. intros H. apply andb_true_iff in H as [Ht Hs].
  apply negb_true_iff in Hs. split; [|assumption].
  destruct tok as [|c rest]; [discriminate|]. now exists c, rest.
Qed.



(** Tokens written with spaces before each of them are what the parser
    finds, whatever else the tokens are made of. *)
Lemma parts_of_tokens (tok : str) (args : list (nat * str)) :
  token tok = true ->
  forallb (fun a => token (snd a)) args = true ->
  parts_of (tok ++ spaced args) = tok :: map snd args.
Proof.
  revert tok. induction args as [|[n t1] args IH]; intros tok Htok H.
  - destruct (token_inv tok Htok) as ((c & rest & ->) & Hs).
    cbn [spaced map]. rewrite app_nil_r. unfold parts_of.
    rewrite split_solid by exact Hs. reflexivity.
  - cbn [forallb snd] in H. apply andb_true_iff in H as [Ht1 Hargs].
    destruct (token_inv tok Htok) as ((c & rest & E) & Hs).
    cbn [spaced repeat app map snd].
    specialize (IH t1 Ht1 Hargs).
    pose proof (parts_of_spaces n (t1 ++ spaced args)) as Hsp.
    unfold parts_of in *.
    rewrite split_app_sep, split_solid by exact Hs.
    cbn [app filter]. rewrite E at 1. cbn [truthy].
    now rewrite Hsp, IH.
Qed.


(** A text that does not end with a space is a run of spaces followed by
    tokens, each but the first with spaces before it. *)
Lemma tokens_of_text (s : str) :
  s <> [] ->
  (forall front c, s = front ++ [c] -> Ascii.eqb " "%char c = false) ->
  exists n cmd args,
    s = repeat " "%char n ++ cmd ++ spaced args
    /\ token cmd = true
    /\ forallb (fun a => token (snd a)) args = true.
Proof.
  induction s as [|x s IH]; intros Hne Hlast; [now contradiction Hne|].
  destruct s as [|y s'].
  - exists 0, [x], []. split; [reflexivity|]. split; [|reflexivity].
    unfold token. cbn [truthy existsb andb].
    now rewrite (Hlast [] x eq_refl).
  - destruct IH as (n & cmd & args & E & Hcmd & Hargs); [discriminate| |].
    { intros front c Ec. apply (Hlast (x :: front) c). now rewrite Ec. }
    destruct (Ascii.eqb " "%char x) eqn:Ex.
    + apply Ascii.eqb_eq in Ex. subst x.
      exists (S n), cmd, args. rewrite E. auto.
    + destruct n as [|m].
      * exists 0, (x :: cmd), args. rewrite E. split; [reflexivity|].
        split; [|assumption].
        destruct (token_inv cmd Hcmd) as (_ & Hs).
        unfold token. cbn [truthy existsb andb]. now rewrite Ex, Hs.
      * exists 0, [x], ((m, cmd) :: args). rewrite E.
        split; [reflexivity|]. split.
        -- unfold token. cbn [truthy existsb andb]. now rewrite Ex.
        -- cbn [forallb snd]. now rewrite Hcmd, Hargs.
Qed.

(** Every trimmed line that is not empty is a command token followed by
    argument tokens, each with spaces before it. *)
Lemma trimmed_line_tokens (line : str) :
  truthy (trim line) = true ->
  exists cmd args,
    trim line = cmd ++ spaced args
    /\ token cmd = true
    /\ forallb (fun a => token (snd a)) args = true.
Proof.
  intros Ht.
  destruct (trim_edges line Ht)
    as ((c0 & rest & E0 & H0) & (c1 & front & E1 & H1)).
  destruct (tokens_of_text (trim line)) as (n & cmd & args & E & Hcmd & Hargs).
  - rewrite E0. discriminate.
  - intros front' c' E'. rewrite E1 in E'.
    apply app_inj_tail in E' as [_ <-].
    destruct (Ascii.eqb " "%char c1) eqn:Ec; [|reflexivity].
    apply Ascii.eqb_eq in Ec. subst c1. discriminate.
  - exists cmd, args. split; [|split; assumption].
    destruct n as [|m]; [exact E|].
    rewrite E0 in E. cbn [repeat app] in E. injection E as -> _.
    discriminate.
Qed.

(** C9, as amended -- Tokenization on spaces.  Every line that is not
    blank is, once trimmed, a command token followed by argument tokens,
    each with one space or more before it, where a token is any run of
    code units without a space; and these tokens are what parsing yields.
    Conversely, for any such tokens, written with any number of spaces
    (at least one) before each argument and any white space around the
    line, parsing yields the command token first and the argument tokens
    after it, and the rest-of-line argument is the argument tokens joined
    by single spaces.  White space other than the space, when it is not
    at an end of the line, is part of a token. *)
Theorem space_separated_tokens
  (line lead trail cmd : str) (args : list (nat * str)) :
  (truthy (trim line) = true ->
   exists cmd' args',
     trim line = cmd' ++ spaced args'
     /\ token cmd' = true
     /\ forallb (fun a => token (snd a)) args' = true
     /\ parts_of (trim line) = cmd' :: map snd args')
  /\ (forallb is_ws lead = true ->
      forallb is_ws trail = true ->
      token cmd = true ->
      forallb (fun a => token (snd a)) args = true ->
      trim (cmd ++ spaced args) = cmd ++ spaced args ->
      let padded := lead ++ (cmd ++ spaced args) ++ trail in
      parts_of (trim padded) = cmd :: map snd args
      /\ nth_error (parts_of (trim padded)) 0 = Some cmd
      /\ rest_from 1 (parts_of (trim padded))
         = joinWith (lit " ") (map snd args)).
Proof.
  split.
  - intros Ht.
    destruct (trimmed_line_tokens line Ht) as (cmd' & args' & E & Hc & Ha).
    exists cmd', args'. repeat split; try assumption.
    rewrite E. now apply parts_of_tokens.
  - intros Hl Htr Hcmd Hargs Hedges padded.
    assert (E : parts_of (trim padded) = cmd :: map snd args).
    { unfold padded.
      assert (Hne : truthy (trim (cmd ++ spaced args)) = true).
      { rewrite Hedges. destruct (token_inv cmd Hcmd) as ((c & r & ->) & _).
        reflexivity. }
      destruct (trim_edges _ Hne) as (Hfirst & Hlast).
      rewrite Hedges in Hfirst, Hlast.
      rewrite trim_padded by assumption.
      now apply parts_of_tokens. }
    rewrite E. split; [reflexivity|split; reflexivity].
Qed.

End Tokens.

(** A tab between [cd] and its argument does not separate them. *)
Lemma tab_is_not_a_separator :
  is_ws (ascii_of_nat 9) = true
  /\ parts_of (trim (lit "cd" ++ ascii_of_nat 9 :: lit "sub"))
     = [lit "cd" ++ ascii_of_nat 9 :: lit "sub"]
  /\ parts_of (trim (lit "cd sub")) = [lit "cd"; lit "sub"]
  /\ case_of
       (nth_error (parts_of (trim (lit "cd" ++ ascii_of_nat 9 :: lit "sub")))
          0)
     = CaseDefault
  /\ case_of (nth_error (parts_of (trim (lit "cd sub"))) 0) = CaseCd.
Proof. repeat split. Qed.

Lemma space_separated_tokens_witness :
  parts_of (trim (lit "  rn   old.txt new name.txt  "))
  = [lit "rn"; lit "old.txt"; lit "new"; lit "name.txt"]
  /\ rest_from 1 (parts_of (trim (lit "  rn   old.txt new name.txt  ")))
     = lit "old.txt new name.txt"
  /\ parts_of (trim (lit "cat  a" ++ ascii_of_nat 160 :: lit "b.txt"))
     = [lit "cat"; lit "a" ++ ascii_of_nat 160 :: lit "b.txt"].
Proof.
  destruct (proj2 (space_separated_tokens [] (lit "  ") (lit "  ") (lit "rn")
                     [(2, lit "old.txt"); (0, lit "new"); (0, lit "name.txt")])
              eq_refl eq_refl eq_refl eq_refl eq_refl)
    as (Hparts & _ & Hrest).
  destruct (proj2 (space_separated_tokens [] [] [] (lit "cat")
                     [(1, lit "a" ++ ascii_of_nat 160 :: lit "b.txt")])
              eq_refl eq_refl eq_refl eq_refl eq_refl)
    as (Hnbsp & _).
  split; [exact Hparts|split; [exact Hrest|exact Hnbsp]].
Defined.

(* ===================================================================== *)
(** ** Lines that are not commands *)
(* ===================================================================== *)

Section Lines.

Variable FS : Type.
Variable io : Collab FS.
Variable host : Host.

Lemma trimStart_nil_iff (s : str) :
  trimStart s = [] <-> forallb is_ws s = true.
Proof.
  induction s as [|c s IH]; cbn [trimStart forallb]; [tauto|].
  destruct (is_ws c); cbn [andb]; [exact IH|].
  split; discriminate.
Qed.

(** A line is trimmed to nothing exactly when it is white space only. *)
Lemma trim_nil_iff (line : str) :
  trim line = [] <-> forallb is_ws line = true.
Proof.
  unfold trim. split.
  - intros H. apply (f_equal (@rev ascii)) in H.
    rewrite rev_involutive in H. cbn [rev] in H.
    apply trimStart_nil_iff in H.
    destruct (trimStart_suffix line) as [lead E].
    destruct (trimStart line) as [|c t] eqn:Et.
    + now apply trimStart_nil_iff.
    + exfalso. rewrite forallb_forall in H.
      assert (Hc : is_ws c = true) by (apply H, in_rev; rewrite rev_involutive; now left).
      cbn [trimStart] in Et. destruct line as [|c0 l0]; [discriminate|].
      clear - Et Hc.
      revert c0 Et. induction l0 as [|c1 l0 IH]; intros c0 Et;
        cbn [trimStart] in Et; destruct (is_ws c0) eqn:E0.
      * discriminate.
      * injection Et as -> _. congruence.
      * now apply IH in Et.
      * injection Et as -> _. congruence.
  - intros H. apply trimStart_nil_iff in H. now rewrite H.
Qed.

(** X1 -- Blank lines.  A line leaves the world exactly as it was, with
    nothing printed, if and only if it consists of white space only. *)
Theorem blank_line_ignored (line : str) (w : World FS) :
  handleLine io host line w = (Done tt, w) <-> forallb is_ws line = true.
Proof.
  split.
  - intros H. apply trim_nil_iff.
    destruct (trim line) as [|c t] eqn:Et; [reflexivity|exfalso].
    unfold handleLine in H. cbv zeta in H. rewrite Et in H.
    cbn [truthy negb] in H.
    destruct (is_exit_keyword (c :: t)); [discriminate|].
    rewrite report_run in H.
    destruct (dispatch_adds_no_cwd_line FS io host (parts_of (c :: t)) w)
      as [(mid & Eout & _) _].
    destruct (dispatch io host (parts_of (c :: t)) w) as [[[]| | | |] w1];
      try discriminate; cbn [snd] in Eout.
    + injection H as H. apply (f_equal (fun x => List.length (out x))) in H.
      cbn [reported out] in H. rewrite Eout, !length_app in H.
      cbn [List.length] in H. lia.
    + injection H as H. apply (f_equal (fun x => List.length (out x))) in H.
      cbn [reported failed out] in H. rewrite Eout, !length_app in H.
      cbn [List.length] in H. lia.
  - intros H. apply trim_nil_iff in H.
    unfold handleLine. cbv zeta. now rewrite H.
Qed.

Lemma said_said (w : World FS) (a b : list Out) :
  said (said w a) b = said w (a ++ b).
Proof. unfold said. cbn [cwd fs out calls]. now rewrite app_assoc. Qed.





(** X18 -- The rest-of-line argument.  What a handler receives as
    [parts.slice(n).join(' ')] is made of tokens, each not empty and
    without a space, with exactly one space between two of them: split
    at every space it gives back these tokens and no empty piece, so it
    has no leading, trailing or repeated space, and a run of spaces
    inside a name reaches the handler as one space.  Without a token it
    is the empty string. *)
Theorem rest_of_line_tokens (n : nat) (trimmed : str) :
  let rest := slice_from n (parts_of trimmed) in
  forallb token rest = true
  /\ (rest <> [] -> split " "%char (rest_from n (parts_of trimmed)) = rest)
  /\ (rest = [] -> rest_from n (parts_of trimmed) = []).
Proof.
  intros rest. unfold rest_from. fold rest.
  assert (Hs : forallb (fun seg => negb (existsb (Ascii.eqb " "%char) seg))
                 rest = true
               /\ forallb truthy rest = true).
  { assert (Hin : forall x, In x rest ->
                     In x (split " "%char trimmed) /\ truthy x = true).
    { intros x Hx. apply filter_In. fold (parts_of trimmed).
      rewrite <- (firstn_skipn n (parts_of trimmed)).
      apply in_or_app. now right. }
    split; apply forallb_forall; intros x Hx; apply Hin in Hx as [Hx Htr];
      [|assumption].
    pose proof (split_segments_solid " "%char trimmed) as Hall.
    rewrite forallb_forall in Hall. now apply Hall. }
  destruct Hs as [Hsolid Htruthy].
  split; [|split].
  - apply forallb_forall. intros x Hx. unfold token.
    rewrite forallb_forall in Hsolid, Htruthy.
    now rewrite (Htruthy x Hx), (Hsolid x Hx).
  - intros Hne. destruct rest as [|x l]; [now contradiction Hne|].
    change (lit " ") with [" "%char].
    now rewrite split_joinWith by (try assumption; discriminate).
  - intros ->. reflexivity.
Qed.

End Lines.



Lemma wrong_kind_invalid_input_witness :
  handleLine Demo.io Demo.host (lit "hash /tmp") Demo.world0
  = (Done tt,
     {| cwd := lit "/home/u"; fs := Demo.disk0;
        out := [OutInvalid; OutCwd (lit "/home/u")];
        calls := [Stat (lit "/tmp")] |}).
Proof.
  exact (wrong_kind_invalid_input Demo.Disk Demo.io Demo.host OnHash
           (lit "hash /tmp") Demo.world0 KDirectory
           eq_refl eq_refl eq_refl eq_refl).
Defined.

Lemma cwd_line_once_when_returned_witness :
  (exists mid,
     out (snd (handleLine Demo.io Demo.host (lit "ls") Demo.world0))
     = out Demo.world0 ++ mid ++ [OutCwd (lit "/home/u")]
     /\ existsb is_cwd_line mid = false)
  /\ fst (handleLine Demo.io Demo.host (lit "decompress a.txt b.txt")
            Demo.world0) = Crashed
  /\ adds_no_cwd_line Demo.world0
       (snd (handleLine Demo.io Demo.host (lit "decompress a.txt b.txt")
               Demo.world0)).
Proof.
  split; [|split].
  - exact (cwd_line_once_when_returned Demo.Disk Demo.io Demo.host
             (lit "ls") Demo.world0 eq_refl eq_refl).
  - reflexivity.
  - exact (proj2 (cwd_line_once_when_returned Demo.Disk Demo.io Demo.host
                    (lit "decompress a.txt b.txt") Demo.world0
                    eq_refl eq_refl)).
Defined.

(* ===================================================================== *)
(** ** Startup *)
(* ===================================================================== *)

Section StartupFacts.

Variable FS : Type.

(** X19 -- The user name on the command line.  The first argument that
    starts with [--username=] decides, whatever precedes or follows it,
    and the name is what stands between its first and its second [=]. *)
Theorem username_from_first_flag
  (pre post : list str) (name tail : str) :
  forallb (fun a => negb (startsWith a (lit "--username="))) pre = true ->
  existsb (Ascii.eqb "="%char) name = false ->
  tail = [] \/ (exists t, tail = "="%char :: t) ->
  Startup.providedUsername
    (pre ++ (lit "--username=" ++ name ++ tail) :: post)
  = Some name.
Proof.
  intros Hpre Hname Htail.
  induction pre as [|a pre IH].
  - cbn [app Startup.providedUsername]. rewrite startsWith_app.
    change (lit "--username=" ++ name ++ tail)
      with (lit "--username" ++ "="%char :: name ++ tail).
    rewrite split_app_sep. cbn [lit list_ascii_of_string split app].
    cbn [Ascii.eqb Bool.eqb nth_error].
    destruct Htail as [->|(t & ->)].
    + rewrite app_nil_r, split_solid by assumption. reflexivity.
    + rewrite split_app_sep, split_solid by assumption. reflexivity.
  - cbn [forallb] in Hpre. apply andb_true_iff in Hpre as [Ha Hpre].
    apply negb_true_iff in Ha.
    cbn [app Startup.providedUsername]. rewrite Ha. now apply IH.
Qed.

Lemma providedUsername_solid (argv : list str) (user : str) :
  Startup.providedUsername argv = Some user ->
  existsb (Ascii.eqb "="%char) user = false.
Proof.
  induction argv as [|a argv IH]; cbn [Startup.providedUsername];
    [discriminate|].
  destruct (startsWith a (lit "--username=")); [|exact IH].
  intros H. apply nth_error_In in H.
  pose proof (split_segments_solid "="%char a) as Hall.
  rewrite forallb_forall in Hall. apply Hall in H.
  now apply negb_true_iff in H.
Qed.

(** X20 -- Starting.  The program either stops with the usage message, or
    runs: then the user name is not empty and has no [=] in it, the
    session starts in the home directory, no capability has been invoked,
    and the welcome line and the cwd line are what has been printed.  It
    stops exactly when no argument gives a name, or the deciding one gives
    the empty name. *)
Theorem start_needs_a_name (host : Host) (argv : list str) (disk : FS) :
  match Startup.start host argv disk with
  | @Startup.Running _ h w =>
      exists user,
        Startup.providedUsername argv = Some user
        /\ truthy user = true
        /\ existsb (Ascii.eqb "="%char) user = false
        /\ h = Startup.with_user host user
        /\ w = {| cwd := homedir host; fs := disk;
                  out := [Startup.welcome user; OutCwd (homedir host)];
                  calls := [] |}
  | @Startup.Fatal _ message =>
      message = Startup.usage
      /\ (Startup.providedUsername argv = None
          \/ Startup.providedUsername argv = Some [])
  end.
Proof.
  unfold Startup.start.
  destruct (Startup.providedUsername argv) as [user|] eqn:E.
  - destruct user as [|c user]; cbn [truthy negb].
    + split; [reflexivity|now right].
    + exists (c :: user). repeat split.
      now apply providedUsername_solid with argv.
  - split; [reflexivity|now left].
Qed.

End StartupFacts.

Lemma username_from_first_flag_witness :
  Startup.providedUsername
    [lit "--verbose"; lit "--username=ann=admin"; lit "--username=bob"]
  = Some (lit "ann").
Proof.
  exact (username_from_first_flag [lit "--verbose"] [lit "--username=bob"]
           (lit "ann") (lit "=admin") eq_refl eq_refl
           (or_intror (ex_intro _ (lit "admin") eq_refl))).
Defined.

(* ===================================================================== *)
(** ** The reduced copy against the complete one *)
(* ===================================================================== *)

Section ReducedFacts.

Variable FS : Type.
Variable io : Collab FS.
Variable host : Host.

Lemma reduced_dispatch_same (parts : list str) :
  absent_in_reduced (case_of (nth_error parts 0)) = false ->
  Reduced.dispatch io host parts = dispatch io host parts.
Proof.
  unfold Reduced.dispatch, dispatch. cbv zeta.
  destruct (case_of (nth_error parts 0)); cbn [absent_in_reduced];
    intros H; try discriminate; reflexivity.
Qed.

(** X21 -- The two program copies.  On every line whose command is not
    [mv], [rm], [os], [hash], [compress] or [decompress], the reduced copy
    does what the complete copy does.  On those six it calls a function it
    does not define: whatever the arguments, it prints [Operation failed]
    and the cwd line, and the filesystem is neither asked nor changed. *)
Theorem reduced_copy_lacks_six_commands (line : str) (w : World FS) :
  let c := case_of (nth_error (parts_of (trim line)) 0) in
  (absent_in_reduced c = false ->
   Reduced.handleLine io host line w = handleLine io host line w)
  /\ (absent_in_reduced c = true ->
      Reduced.handleLine io host line w
      = (Done tt, said w [OutFailed; OutCwd (cwd w)])).
Proof.
  intros c. subst c. split; intros H.
  - unfold Reduced.handleLine, handleLine. cbv zeta.
    destruct (negb (truthy (trim line))); [reflexivity|].
    destruct (is_exit_keyword (trim line)); [reflexivity|].
    now rewrite reduced_dispatch_same.
  - assert (Hsel : case_of (nth_error (parts_of (trim line)) 0)
                   <> CaseDefault).
    { intros E. rewrite E in H. discriminate. }
    destruct (selected_line_dispatched (trim line) Hsel) as [Ht He].
    unfold Reduced.handleLine. cbv zeta. rewrite Ht, He. cbn [negb].
    rewrite report_run. unfold Reduced.dispatch. cbv zeta.
    destruct (case_of (nth_error (parts_of (trim line)) 0));
      try discriminate;
      unfold throw, reported, failed, said; cbn [cwd fs out calls];
      now rewrite <- app_assoc.
Qed.

End ReducedFacts.

Lemma reduced_copy_lacks_six_commands_witness :
  Reduced.handleLine Demo.io Demo.host (lit "rm a.txt") Demo.world0
  = (Done tt, said Demo.world0 [OutFailed; OutCwd (lit "/home/u")])
  /\ Reduced.handleLine Demo.io Demo.host (lit "cp a.txt /tmp") Demo.world0
     = handleLine Demo.io Demo.host (lit "cp a.txt /tmp") Demo.world0.
Proof.
  split.
  - exact (proj2 (reduced_copy_lacks_six_commands Demo.Disk Demo.io
                    Demo.host (lit "rm a.txt") Demo.world0) eq_refl).
  - exact (proj1 (reduced_copy_lacks_six_commands Demo.Disk Demo.io
                    Demo.host (lit "cp a.txt /tmp") Demo.world0) eq_refl).
Defined.

(* ===================================================================== *)
(** ** Going down and up *)
(* ===================================================================== *)

Section UpAndDown.

Variable FS : Type.
Variable io : Collab FS.

(** [changeDir] when the target is a directory. *)
Lemma changeDir_enters (arg : str) (w : World FS) :
  isAbsolute (cwd w) = true ->
  truthy arg = true ->
  stat io (fs w) (safeResolve (cwd w) arg) = Some KDirectory ->
  changeDir io arg w
  = (Done tt,
     {| cwd := safeResolve (cwd w) arg; fs := fs w; out := out w;
        calls := calls w ++ [Stat (safeResolve (cwd w) arg)] |}).
Proof.
  intros Habs Harg Hstat. unfold changeDir. rewrite Harg. cbn [negb].
  unfold bind, get_cwd, try_catch, fs_stat, query. rewrite Hstat.
  cbn [isDirectory negb].
  destruct (safeResolve_absolute (cwd w) arg Habs)
    as [_ (segs & t & _ & E)].
  unfold parse_root. rewrite Habs, E. reflexivity.
Qed.

Lemma body_not_nil (segs : list str) (t : bool) :
  forallb plainb segs = true -> segs <> [] -> body segs t <> [].
Proof.
  intros Hp Hne. destruct segs as [|x l]; [congruence|].
  destruct (joinWith_plain_cons x l) as (c & rest & E).
  { cbn [forallb] in Hp. apply andb_true_iff in Hp as [Hx _].
    now apply plainb_inv in Hx. }
  unfold body. rewrite E. discriminate.
Qed.

(** [goUp] on a canonical working directory drops its last segment. *)
Lemma goUp_canonical (segs : list str) (t : bool) (w : World FS) :
  forallb plainb segs = true ->
  cwd w = slash :: body segs t ->
  goUp w
  = (Done tt,
     match segs with
     | [] => w
     | _ :: _ => moved w (slash :: body (removelast segs) false)
     end).
Proof.
  intros Hp E. rewrite goUp_run. f_equal.
  assert (Hroot : parse_root (cwd w) = [slash]) by now rewrite E.
  rewrite Hroot. destruct segs as [|x l].
  - rewrite E. reflexivity.
  - assert (Hne : str_eqb (cwd w) [slash] = false).
    { apply str_eqb_neq. rewrite E. intros H. injection H as H.
      apply (body_not_nil (x :: l) t Hp); [discriminate|exact H]. }
    rewrite Hne. unfold moved. rewrite E.
    now rewrite dirname_canonical.
Qed.

(** [..] resolves to the parent. *)
Lemma safeResolve_dotdot (segs : list str) (t : bool) :
  forallb plainb segs = true ->
  safeResolve (slash :: body segs t) [dot; dot]
  = slash :: body (removelast segs) false.
Proof.
  intros Hp.
  destruct (safeResolve_absolute (slash :: body segs t) [dot; dot] eq_refl)
    as [E _].
  rewrite E. cbn [isAbsolute Ascii.eqb]. 
  change (isAbsolute [dot; dot]) with false. cbv iota.
  rewrite join_canonical by auto.
  rewrite normalize_canonical.
  - f_equal. f_equal.
    destruct segs as [|x l] using rev_ind; [reflexivity|].
    rewrite removelast_last, rev_app_distr. cbn [rev app].
    rewrite forallb_app in Hp. apply andb_true_iff in Hp as [_ Hx].
    cbn [forallb] in Hx. rewrite andb_true_r in Hx.
    apply plainb_inv in Hx as (_ & _ & _ & Hdd).
    cbn. rewrite Hdd. now rewrite rev_involutive.
  - apply collapse_false_plain.
    + apply forallb_forall. intros y Hy. apply in_rev in Hy.
      rewrite forallb_forall in Hp. auto.
    + apply split_segments_solid.
Qed.

Lemma plain_removelast (segs : list str) :
  forallb plainb segs = true -> forallb plainb (removelast segs) = true.
Proof.
  intros Hp. apply forallb_forall. intros x Hx.
  rewrite forallb_forall in Hp. apply Hp.
  destruct segs as [|y l] using rev_ind; [contradiction|].
  rewrite removelast_last in Hx. apply in_or_app. now left.
Qed.

(** A plain name resolves to the child of that name. *)
Lemma safeResolve_child (segs : list str) (t : bool) (name : str) :
  forallb plainb segs = true -> plainb name = true ->
  safeResolve (slash :: body segs t) name
  = slash :: body (segs ++ [name]) false.
Proof.
  intros Hp Hn. destruct (plainb_inv name Hn) as (Ht & Hs & _).
  destruct (safeResolve_absolute (slash :: body segs t) name eq_refl)
    as [E _].
  assert (Hrel : isAbsolute name = false).
  { destruct name as [|c r]; [reflexivity|].
    cbn [existsb] in Hs. apply orb_false_iff in Hs as [Hc _].
    cbn [isAbsolute]. now rewrite Ascii.eqb_sym. }
  rewrite E, Hrel, join_canonical by assumption.
  rewrite split_solid, collapse_plain, rev_involutive, endsWithSlash_solid
    by (try assumption; cbn [forallb]; now rewrite Hn).
  apply normalize_canonical.
  rewrite forallb_app, Hp. cbn [forallb]. now rewrite Hn.
Qed.

(** X9 -- Down and up again.  From a working directory written without a
    trailing slash, [cd name] into an existing directory with a plain
    name, followed by [up], gives the working directory back. *)
Theorem cd_then_up_returns (segs : list str) (name : str) (w : World FS) :
  forallb plainb segs = true ->
  plainb name = true ->
  cwd w = slash :: body segs false ->
  stat io (fs w) (safeResolve (cwd w) name) = Some KDirectory ->
  cwd (snd (changeDir io name w)) = slash :: body (segs ++ [name]) false
  /\ cwd (snd (goUp (snd (changeDir io name w)))) = cwd w.
Proof.
  intros Hp Hn Ec Hstat.
  assert (Hchild : safeResolve (cwd w) name
                   = slash :: body (segs ++ [name]) false)
    by (rewrite Ec; now apply safeResolve_child).
  rewrite changeDir_enters; try assumption.
  - cbn [snd cwd]. split; [assumption|].
    rewrite (goUp_canonical (segs ++ [name]) false).
    + cbn [snd]. destruct (segs ++ [name]) as [|x l] eqn:E.
      * now destruct segs.
      * rewrite <- E, removelast_last. cbn [moved cwd]. now rewrite Ec.
    + rewrite forallb_app, Hp. cbn [forallb]. now rewrite Hn.
    + assumption.
  - now rewrite Ec.
  - now apply plainb_inv in Hn.
Qed.

(** X10 -- [cd ..] is [up].  Whenever the parent is reported as a
    directory, [cd ..] leaves the session in the same working directory as
    [up]; at the root both stay at the root. *)
Theorem cd_dotdot_is_up (segs : list str) (t : bool) (w : World FS) :
  forallb plainb segs = true ->
  cwd w = slash :: body segs t ->
  stat io (fs w) (safeResolve (cwd w) [dot; dot]) = Some KDirectory ->
  cwd (snd (changeDir io [dot; dot] w)) = cwd (snd (goUp w)).
Proof.
  intros Hp Ec Hstat.
  rewrite changeDir_enters; try assumption; try reflexivity.
  - cbn [snd cwd]. rewrite (goUp_canonical segs t) by assumption.
    rewrite Ec, safeResolve_dotdot by assumption.
    destruct segs as [|x l]; [|reflexivity].
    cbn [snd removelast body]. now rewrite Ec.
  - now rewrite Ec.
Qed.

Lemma ups_step (segs : list str) (t : bool) (w : World FS) :
  forallb plainb segs = true ->
  cwd w = slash :: body segs t ->
  cwd (snd (goUp w)) = slash :: body (removelast segs) false.
Proof.
  intros Hp Ec. rewrite (goUp_canonical segs t) by assumption.
  destruct segs as [|x l]; [|reflexivity].
  cbn [snd removelast body]. now rewrite Ec.
Qed.

Lemma ups_succ (n : nat) (segs : list str) (t : bool) (w : World FS) :
  forallb plainb segs = true ->
  cwd w = slash :: body segs t ->
  cwd (ups (S n) w)
  = slash :: body (firstn (List.length segs - S n) segs) false.
Proof.
  revert segs t w. induction n as [|n IH]; intros segs t w Hp Ec.
  - cbn [ups]. rewrite (ups_step segs t) by assumption.
    rewrite removelast_firstn_len. do 3 f_equal. lia.
  - change (ups (S (S n)) w) with (ups (S n) (snd (goUp w))).
    rewrite (IH (removelast segs) false).
    + rewrite removelast_firstn_len at 2. rewrite firstn_firstn.
      do 3 f_equal. rewrite removelast_firstn_len, length_firstn. lia.
    + now apply plain_removelast.
    + now apply ups_step with t.
Qed.

(** X11 -- Going up reaches the root and stays there.  From a working
    directory of [k] segments, [n] times [up] leaves its first [k - n]
    segments; after [k] or more, the working directory is the root. *)
Theorem ups_reach_root (n : nat) (segs : list str) (t : bool) (w : World FS) :
  forallb plainb segs = true ->
  cwd w = slash :: body segs t ->
  cwd (ups (S n) w)
  = slash :: body (firstn (List.length segs - S n) segs) false
  /\ (List.length segs <= n -> cwd (ups n w) = [slash]).
Proof.
  intros Hp Ec. split; [now apply ups_succ with t|].
  intros Hlen. destruct n as [|n].
  - destruct segs; [|cbn in Hlen; lia]. cbn [ups]. now rewrite Ec.
  - rewrite (ups_succ n segs t) by assumption.
    replace (List.length segs - S n) with 0 by lia. reflexivity.
Qed.

End UpAndDown.

Lemma cd_then_up_returns_witness :
  cwd (snd (changeDir Demo.io (lit "u") (moved Demo.world0 (lit "/home"))))
  = lit "/home/u"
  /\ cwd (snd (goUp (snd (changeDir Demo.io (lit "u")
                            (moved Demo.world0 (lit "/home"))))))
     = lit "/home".
Proof.
  exact (cd_then_up_returns Demo.Disk Demo.io [lit "home"] (lit "u")
           (moved Demo.world0 (lit "/home")) eq_refl eq_refl eq_refl eq_refl).
Defined.

Lemma cd_dotdot_is_up_witness :
  cwd (snd (changeDir Demo.io [dot; dot] Demo.world0))
  = cwd (snd (goUp Demo.world0)).
Proof.
  exact (cd_dotdot_is_up Demo.Disk Demo.io [lit "home"; lit "u"] false
           Demo.world0 eq_refl eq_refl eq_refl).
Defined.

Lemma ups_reach_root_witness :
  cwd (ups 1 Demo.world0) = lit "/home"
  /\ cwd (ups 5 Demo.world0) = lit "/".
Proof.
  split.
  - exact (proj1 (ups_reach_root Demo.Disk 0 [lit "home"; lit "u"] false
                    Demo.world0 eq_refl eq_refl)).
  - apply (proj2 (ups_reach_root Demo.Disk 5 [lit "home"; lit "u"] false
                    Demo.world0 eq_refl eq_refl)).
    cbn. lia.
Defined.

(* ===================================================================== *)
(** ** Listing *)
(* ===================================================================== *)

Section Listing.

Variable FS : Type.
Variable io : Collab FS.
Variable host : Host.

Lemma said_nil (w : World FS) : said w [] = w.
Proof. destruct w. unfold said. cbn [cwd fs out calls]. now rewrite app_nil_r. Qed.

Lemma console_log_each_run (lines : list str) (w : World FS) :
  console_log_each lines w = (Done tt, said w (map OutLog lines)).
Proof.
  revert w. induction lines as [|l lines IH]; intros w.
  - cbn [console_log_each map ret]. unfold ret. now rewrite said_nil.
  - cbn [console_log_each map]. unfold bind, console_log, emit.
    rewrite IH. unfold said. cbn [cwd fs out calls].
    now rewrite <- app_assoc.
Qed.

Lemma sort_insert_perm (x : str) (l : list str) :
  Permutation (sort_insert host x l) (x :: l).
Proof.
  induction l as [|y l IH]; cbn [sort_insert]; [reflexivity|].
  destruct (locale_le host x y); [reflexivity|].
  rewrite IH. apply perm_swap.
Qed.

Lemma sort_perm (l : list str) : Permutation (sort host l) l.
Proof.
  induction l as [|x l IH]; cbn [sort fold_right]; [reflexivity|].
  fold (sort host l). rewrite sort_insert_perm. now constructor.
Qed.

Lemma sort_insert_sorted (x : str) (l : list str) :
  total (locale_le host) -> Sorted (fun a b => locale_le host a b = true) l ->
  Sorted (fun a b => locale_le host a b = true) (sort_insert host x l).
Proof.
  intros Htot Hs. induction Hs as [|y l Hs IH Hhd]; cbn [sort_insert].
  - repeat constructor.
  - destruct (locale_le host x y) eqn:Exy.
    + constructor; [now constructor|]. now constructor.
    + constructor; [assumption|].
      assert (Hyx : locale_le host y x = true).
      { destruct (Htot x y) as [H|H]; [congruence|exact H]. }
      destruct Hhd as [|z l' Hyz]; cbn [sort_insert].
      * now constructor.
      * destruct (locale_le host x z); now constructor.
Qed.

Lemma sort_sorted (l : list str) :
  total (locale_le host) ->
  Sorted (fun a b => locale_le host a b = true) (sort host l).
Proof.
  intros Htot. induction l as [|x l IH]; cbn [sort fold_right].
  - constructor.
  - fold (sort host l). now apply sort_insert_sorted.
Qed.

(** X12 -- The listing.  [ls] reads the working directory once.  When
    that fails it prints [Operation failed]; otherwise it prints one line
    per directory, tagged [<DIR>], and then one line per regular file,
    tagged [<FILE>]: each group is a rearrangement of the names of that
    kind, in collation order whenever the collation is total; entries of
    any other kind are not listed. *)
Theorem listDir_output (w : World FS) :
  listDir io host w
  = (Done tt,
     match readdir io (fs w) (cwd w) with
     | Some items =>
         after w
           (map OutLog
              (map (fun d => d ++ lit " <DIR>")
                 (sort host (names_of isDirectory items))
               ++ map (fun f => f ++ lit " <FILE>")
                    (sort host (names_of isFile items))))
           [Readdir (cwd w)]
     | None => after w [OutFailed] [Readdir (cwd w)]
     end)
  /\ (forall want items,
        Permutation (sort host (names_of want items)) (names_of want items)
        /\ (total (locale_le host) ->
            Sorted (fun a b => locale_le host a b = true)
              (sort host (names_of want items)))).
Proof.
  split.
  - unfold listDir, bind, get_cwd, try_catch, query.
    destruct (readdir io (fs w) (cwd w)) as [items|].
    + rewrite console_log_each_run. cbn beta iota.
      rewrite console_log_each_run.
      unfold said, after, invoked, names_of. cbn [cwd fs out calls].
      now rewrite map_app, app_assoc.
    + reflexivity.
  - intros want items. split; [apply sort_perm|apply sort_sorted].
Qed.

End Listing.

Lemma code_units_le_total : total Demo.code_units_le.
Proof.
  intros a. induction a as [|x a IH]; intros b; [now left|].
  destruct b as [|y b]; [now right|].
  cbn [Demo.code_units_le]. rewrite (Ascii.eqb_sym y x).
  destruct (Ascii.eqb x y) eqn:E; [apply IH|].
  assert (Hne : nat_of_ascii x <> nat_of_ascii y).
  { intros H. apply (f_equal ascii_of_nat) in H.
    rewrite !ascii_nat_embedding in H. apply Ascii.eqb_neq in E. congruence. }
  destruct (Nat.ltb (nat_of_ascii x) (nat_of_ascii y)) eqn:L; [now left|].
  right. apply Nat.ltb_lt. apply Nat.ltb_ge in L. lia.
Qed.

Lemma listDir_output_witness :
  Demo.printed (snd (listDir Demo.io Demo.host (moved Demo.world0 (lit "/"))))
  = ["home <DIR>"; "tmp <DIR>"]%string
  /\ Sorted (fun a b => Demo.code_units_le a b = true)
       (sort Demo.host (names_of isFile
                          [ {| name := lit "b"; kind := KFile |};
                            {| name := lit "l"; kind := KOther |};
                            {| name := lit "a"; kind := KFile |} ])).
Proof.
  destruct (listDir_output Demo.Disk Demo.io Demo.host
              (moved Demo.world0 (lit "/"))) as [Hrun Hsort].
  split.
  - rewrite Hrun. reflexivity.
  - apply Hsort. exact code_units_le_total.
Defined.

(* ===================================================================== *)
(** ** What reaches the filesystem *)
(* ===================================================================== *)

(** Running a handler on a world symbolically: unfold the combinators and
    split on everything the collaborator may answer. *)
Ltac unfold_monad :=
  unfold fs_codec_pipeline;
  unfold invalidInput, operationFailed, console_log, fs_stat,
    fs_stat_or_null, fs_read_stream, fs_pipeline;
  unfold bind, ret, throw, never, get_cwd, set_cwd, emit, try_catch, query,
    command.

Ltac unfold_handlers :=
  unfold dispatch, compressFile, decompressFile;
  unfold goUp, changeDir, listDir, catFile, addFile, makeDir, renameFile,
    copyFile, moveFile, removeFile, osInfo, hashFile, codecFile.

Ltac crunch_step :=
  match goal with
  | |- context [console_log_each ?l ?w] =>
      rewrite (console_log_each_run _ l w)
  | |- context [match ?x with _ => _ end] =>
      lazymatch x with
      | context [match _ with _ => _ end] => fail
      | _ => destruct x eqn:?
      end
  end.

Ltac crunch := repeat (cbn beta iota zeta; crunch_step); cbn beta iota zeta.

Ltac solve_calls tac :=
  unfold adds_calls; cbn [snd calls invoked said after];
  rewrite <- ?app_assoc;
  first [ exists []; split; [symmetry; apply app_nil_r|constructor]
        | eexists; split; [reflexivity|repeat constructor; tac] ].

Section Filesystem.

Variable FS : Type.
Variable io : Collab FS.
Variable host : Host.

Lemma dirname_below (p : str) : below [slash] p -> below [slash] (dirname p).
Proof.
  intros (segs & t & Hp & ->). cbn [app].
  rewrite dirname_canonical by assumption.
  exists (removelast segs), false.
  split; [now apply plain_removelast|reflexivity].
Qed.

(** What [handleLine] adds to the log of capabilities is what the
    dispatcher adds. *)
Lemma handleLine_adds_calls
  (P : FsCall -> Prop) (line : str) (w : World FS) :
  adds_calls P w (snd (dispatch io host (parts_of (trim line)) w)) ->
  adds_calls P w (snd (handleLine io host line w)).
Proof.
  intros H. unfold handleLine. cbv zeta.
  destruct (negb (truthy (trim line)));
    [exists []; split; [symmetry; apply app_nil_r|constructor]|].
  destruct (is_exit_keyword (trim line));
    [exists []; split; [symmetry; apply app_nil_r|constructor]|].
  rewrite report_run.
  destruct (dispatch io host (parts_of (trim line)) w) as [[[]| | | |] w1];
    exact H.
Qed.

Lemma dispatch_calls_below (parts : list str) (w : World FS) :
  below [slash] (cwd w) ->
  adds_calls call_below w (snd (dispatch io host parts w)).
Proof.
  intros Hb. unfold_handlers. unfold_monad. crunch.
  all: solve_calls
         ltac:(repeat first
                 [ exact Hb
                 | apply safeResolve_absolute; apply below_root_absolute;
                   exact Hb
                 | apply dirname_below
                 | apply join_absolute_below; apply below_root_absolute ]).
Qed.

(** X13 -- Confinement of all filesystem access.  Starting below the
    root, every path that the handler of a line hands to a filesystem
    capability (stat, readdir, open, mkdir, rename, unlink, read stream,
    pipeline) is the root or a descendant of it, free of [.] and [..],
    whatever the line is and however the handler ends. *)
Theorem filesystem_access_below_root (line : str) (w : World FS) :
  below [slash] (cwd w) ->
  adds_calls call_below w (snd (handleLine io host line w)).
Proof.
  intros Hb. now apply handleLine_adds_calls, dispatch_calls_below.
Qed.

End Filesystem.

Lemma filesystem_access_below_root_witness :
  adds_calls call_below Demo.world0
    (snd (handleLine Demo.io Demo.host (lit "cp a.txt ../../..")
            Demo.world0)).
Proof.
  apply (filesystem_access_below_root Demo.Disk Demo.io Demo.host
           (lit "cp a.txt ../../..") Demo.world0).
  exists [lit "home"; lit "u"], false. split; reflexivity.
Defined.

(* ===================================================================== *)
(** ** Reading and deleting *)
(* ===================================================================== *)

Section ReadingAndDeleting.

Variable FS : Type.
Variable io : Collab FS.
Variable host : Host.

(** A line that selects a case, in terms of the dispatcher. *)
Lemma handleLine_selected (line : str) (w : World FS) :
  case_of (nth_error (parts_of (trim line)) 0) <> CaseDefault ->
  handleLine io host line w
  = match dispatch io host (parts_of (trim line)) w with
    | (Done a, w1) => (Done a, reported w1)
    | (Thrown, w1) => (Done tt, reported (failed w1))
    | (Unsettled, w1) => (Unsettled, w1)
    | (Exited, w1) => (Exited, w1)
    | (Crashed, w1) => (Crashed, w1)
    end.
Proof.
  intros Hsel.
  destruct (selected_line_dispatched (trim line) Hsel) as [Ht He].
  now rewrite handleLine_dispatched, report_run.
Qed.

Lemma handleLine_keeps_fs (line : str) (w : World FS) :
  fs (snd (dispatch io host (parts_of (trim line)) w)) = fs w ->
  fs (snd (handleLine io host line w)) = fs w.
Proof.
  intros H. unfold handleLine. cbv zeta.
  destruct (negb (truthy (trim line))); [reflexivity|].
  destruct (is_exit_keyword (trim line)); [reflexivity|].
  rewrite report_run.
  destruct (dispatch io host (parts_of (trim line)) w) as [[[]| | | |] w1];
    exact H.
Qed.

Lemma dispatch_read_only (parts : list str) (w : World FS) :
  read_only (case_of (nth_error parts 0)) = true ->
  fs (snd (dispatch io host parts w)) = fs w
  /\ adds_calls is_query w (snd (dispatch io host parts w)).
Proof.
  intros H. unfold dispatch. cbv zeta.
  destruct (case_of (nth_error parts 0)); cbn [read_only] in H;
    try discriminate; clear H.
  all: unfold goUp, changeDir, listDir, catFile, osInfo, hashFile;
    unfold_monad; crunch.
  all: split; [reflexivity|solve_calls ltac:(exact I)].
Qed.

(** X5 -- Commands that only read.  [up], [cd], [ls], [cat], [os] and
    [hash], unrecognized commands, blank lines and exit keywords never
    change the filesystem, whatever it answers, and invoke nothing but
    stat, readdir and read streams. *)
Theorem reading_commands_keep_the_filesystem (line : str) (w : World FS) :
  read_only (case_of (nth_error (parts_of (trim line)) 0)) = true ->
  fs (snd (handleLine io host line w)) = fs w
  /\ adds_calls is_query w (snd (handleLine io host line w)).
Proof.
  intros H. destruct (dispatch_read_only _ w H) as [Hfs Hcalls].
  split; [now apply handleLine_keeps_fs|now apply handleLine_adds_calls].
Qed.




(** [cat] and [hash] once the target is a regular file. *)
Lemma catFile_run (arg : str) (w : World FS) :
  truthy arg = true ->
  stat io (fs w) (safeResolve (cwd w) arg) = Some KFile ->
  catFile io arg w
  = (let rs := read_stream io (fs w) (safeResolve (cwd w) arg) in
     (if snd rs then Done tt else Unsettled,
      after w
        [OutStdout (fst rs); if snd rs then OutLog [] else OutFailed]
        [Stat (safeResolve (cwd w) arg);
         ReadStream (safeResolve (cwd w) arg)])).
Proof.
  intros Harg Hstat. unfold catFile. rewrite Harg. cbn [negb]. unfold_monad.
  cbn beta iota zeta. rewrite Hstat. cbn [isFile negb invoked fs].
  destruct (snd (read_stream io (fs w) (safeResolve (cwd w) arg)));
    unfold after; cbn [cwd fs out calls invoked];
    now rewrite <- !app_assoc.
Qed.

Lemma hashFile_run (arg : str) (w : World FS) :
  truthy arg = true ->
  stat io (fs w) (safeResolve (cwd w) arg) = Some KFile ->
  hashFile io host arg w
  = (let rs := read_stream io (fs w) (safeResolve (cwd w) arg) in
     (Done tt,
      after w
        [if snd rs then OutLog (sha256_hex host (fst rs)) else OutFailed]
        [Stat (safeResolve (cwd w) arg);
         ReadStream (safeResolve (cwd w) arg)])).
Proof.
  intros Harg Hstat. unfold hashFile. rewrite Harg. cbn [negb]. unfold_monad.
  cbn beta iota zeta. rewrite Hstat. cbn [isFile negb invoked fs].
  destruct (snd (read_stream io (fs w) (safeResolve (cwd w) arg)));
    unfold after; cbn [cwd fs out calls invoked];
    now rewrite <- !app_assoc.
Qed.

(** X15 -- Reading a file.  For [cat] on a regular file whose stream ends,
    the output is the content as read, an empty line, and the cwd line;
    stat and the read stream are all that is invoked. *)
Theorem cat_prints_the_content (line : str) (w : World FS) :
  let parts := parts_of (trim line) in
  let target := safeResolve (cwd w) (rest_from 1 parts) in
  case_of (nth_error parts 0) = CaseCat ->
  truthy (rest_from 1 parts) = true ->
  stat io (fs w) target = Some KFile ->
  snd (read_stream io (fs w) target) = true ->
  handleLine io host line w
  = (Done tt,
     after w
       [OutStdout (fst (read_stream io (fs w) target)); OutLog [];
        OutCwd (cwd w)]
       [Stat target; ReadStream target]).
Proof.
  intros parts target. subst target. intros Hcase Harg Hstat Hend.
  rewrite handleLine_selected by (fold parts; rewrite Hcase; discriminate).
  fold parts. unfold dispatch. cbv zeta. rewrite Hcase.
  rewrite catFile_run by assumption. cbv zeta. rewrite Hend.
  unfold reported, after. cbn [cwd fs out calls].
  now rewrite <- app_assoc.
Qed.

(** X16 -- Hashing a file.  For [hash] on a regular file, the handler
    always returns: it prints the digest of exactly the data read when the
    stream ends, and [Operation failed] when the stream emits an error;
    the cwd line follows in both cases. *)
Theorem hash_prints_digest_or_fails (line : str) (w : World FS) :
  let parts := parts_of (trim line) in
  let target := safeResolve (cwd w) (rest_from 1 parts) in
  case_of (nth_error parts 0) = CaseHash ->
  truthy (rest_from 1 parts) = true ->
  stat io (fs w) target = Some KFile ->
  handleLine io host line w
  = (Done tt,
     after w
       [if snd (read_stream io (fs w) target)
        then OutLog (sha256_hex host (fst (read_stream io (fs w) target)))
        else OutFailed;
        OutCwd (cwd w)]
       [Stat target; ReadStream target]).
Proof.
  intros parts target. subst target. intros Hcase Harg Hstat.
  rewrite handleLine_selected by (fold parts; rewrite Hcase; discriminate).
  fold parts. unfold dispatch. cbv zeta. rewrite Hcase.
  rewrite hashFile_run by assumption. cbv zeta.
  unfold reported, after. cbn [cwd fs out calls].
  now rewrite <- app_assoc.
Qed.

End ReadingAndDeleting.

Lemma reading_commands_keep_the_filesystem_witness :
  fs (snd (handleLine Demo.io Demo.host (lit "hash a.txt") Demo.world0))
  = Demo.disk0
  /\ adds_calls is_query Demo.world0
       (snd (handleLine Demo.io Demo.host (lit "hash a.txt") Demo.world0)).
Proof.
  exact (reading_commands_keep_the_filesystem Demo.Disk Demo.io Demo.host
           (lit "hash a.txt") Demo.world0 eq_refl).
Defined.


Lemma cat_prints_the_content_witness :
  handleLine Demo.io Demo.host (lit "cat a.txt") Demo.world0
  = (Done tt,
     after Demo.world0
       [OutStdout (lit "hi"); OutLog []; OutCwd (lit "/home/u")]
       [Stat (lit "/home/u/a.txt"); ReadStream (lit "/home/u/a.txt")]).
Proof.
  exact (cat_prints_the_content Demo.Disk Demo.io Demo.host (lit "cat a.txt")
           Demo.world0 eq_refl eq_refl eq_refl eq_refl).
Defined.

Lemma hash_prints_digest_or_fails_witness :
  handleLine Demo.io Demo.host (lit "hash secret.txt") Demo.world0
  = (Done tt,
     after Demo.world0 [OutFailed; OutCwd (lit "/home/u")]
       [Stat (lit "/home/u/secret.txt");
        ReadStream (lit "/home/u/secret.txt")]).
Proof.
  exact (hash_prints_digest_or_fails Demo.Disk Demo.io Demo.host
           (lit "hash secret.txt") Demo.world0 eq_refl eq_refl eq_refl).
Defined.

(* ===================================================================== *)
(** ** Copying and moving *)
(* ===================================================================== *)

Section CopyAndMove.

Variable FS : Type.
Variable io : Collab FS.
Variable host : Host.

(** Joining a plain name onto a canonical directory. *)
Lemma join_child (segs : list str) (t : bool) (name : str) :
  forallb plainb segs = true -> plainb name = true ->
  join [slash :: body segs t; name] = slash :: body (segs ++ [name]) false.
Proof.
  intros Hp Hn. destruct (plainb_inv name Hn) as (Ht & Hs & _).
  rewrite join_canonical by assumption.
  now rewrite split_solid, collapse_plain, rev_involutive,
    endsWithSlash_solid
    by (try assumption; cbn [forallb]; now rewrite Hn).
Qed.

(** Where a file copied or moved into a directory arrives. *)
Lemma arrival (dir srcArg destDirArg : str) :
  isAbsolute dir = true ->
  safeResolve dir srcArg <> [slash] ->
  basename (join [safeResolve dir destDirArg;
                  basename (safeResolve dir srcArg)])
  = basename (safeResolve dir srcArg)
  /\ (dirname (join [safeResolve dir destDirArg;
                     basename (safeResolve dir srcArg)])
      = safeResolve dir destDirArg
      \/ dirname (join [safeResolve dir destDirArg;
                        basename (safeResolve dir srcArg)]) ++ [slash]
         = safeResolve dir destDirArg).
Proof.
  intros Hd Hsrc.
  destruct (safeResolve_absolute dir srcArg Hd)
    as [_ (ssegs & t & Hs & Es)].
  destruct (safeResolve_absolute dir destDirArg Hd)
    as [_ (dsegs & t' & Hds & Ed)].
  rewrite Es, Ed in *. cbn [app] in *.
  destruct ssegs as [|last init _] using rev_ind; [now contradiction Hsrc|].
  rewrite forallb_app in Hs. apply andb_true_iff in Hs as [_ Hlast].
  cbn [forallb] in Hlast. rewrite andb_true_r in Hlast.
  rewrite basename_canonical, join_child by assumption.
  split; [now apply basename_canonical|].
  rewrite dirname_canonical, removelast_last
    by (rewrite forallb_app, Hds; cbn [forallb]; now rewrite Hlast).
  destruct dsegs as [|d ds]; [now left|].
  destruct t'; [right|now left].
  unfold body. now rewrite app_nil_r.
Qed.

Lemma copyFile_run (srcArg destDirArg : str) (w : World FS) :
  truthy srcArg = true -> truthy destDirArg = true ->
  stat io (fs w) (safeResolve (cwd w) srcArg) = Some KFile ->
  stat io (fs w) (safeResolve (cwd w) destDirArg) = Some KDirectory ->
  copyFile io (Some srcArg) destDirArg w
  = (let src := safeResolve (cwd w) srcArg in
     let destDir := safeResolve (cwd w) destDirArg in
     let destPath := join [destDir; basename src] in
     let r := pipeline io (fs w) src Direct destPath in
     (Done tt,
      {| cwd := cwd w; fs := fst r;
         out := out w ++ (if snd r then [] else [OutFailed]);
         calls := calls w
                  ++ [Stat src; Stat destDir; Pipeline src Direct destPath]
      |})).
Proof.
  intros Hs Hd Hsrc Hdest. unfold copyFile. rewrite Hs, Hd. cbn [negb orb].
  unfold_monad. cbn beta iota zeta. rewrite Hsrc.
  cbn [isFile negb invoked fs]. rewrite Hdest.
  cbn [isDirectory negb invoked fs cwd out calls].
  destruct (snd (pipeline io (fs w) _ Direct _));
    unfold invoked; cbn [fs cwd out calls];
    rewrite <- ?app_assoc, ?app_nil_r; reflexivity.
Qed.

Lemma moveFile_run (srcArg destDirArg : str) (w : World FS) :
  truthy srcArg = true -> truthy destDirArg = true ->
  stat io (fs w) (safeResolve (cwd w) srcArg) = Some KFile ->
  stat io (fs w) (safeResolve (cwd w) destDirArg) = Some KDirectory ->
  moveFile io (Some srcArg) destDirArg w
  = (let src := safeResolve (cwd w) srcArg in
     let destDir := safeResolve (cwd w) destDirArg in
     let destPath := join [destDir; basename src] in
     let asked := [Stat src; Stat destDir; Rename src destPath] in
     let r := pipeline io (fs w) src Direct destPath in
     (Done tt,
      match rename io (fs w) src destPath with
      | Some renamed =>
          {| cwd := cwd w; fs := renamed; out := out w;
             calls := calls w ++ asked |}
      | None =>
          if snd r then
            match unlink io (fst r) src with
            | Some unlinked =>
                {| cwd := cwd w; fs := unlinked; out := out w;
                   calls := calls w ++ asked
                            ++ [Pipeline src Direct destPath; Unlink src] |}
            | None =>
                {| cwd := cwd w; fs := fst r; out := out w ++ [OutFailed];
                   calls := calls w ++ asked
                            ++ [Pipeline src Direct destPath; Unlink src] |}
            end
          else
            {| cwd := cwd w; fs := fst r; out := out w ++ [OutFailed];
               calls := calls w ++ asked
                        ++ [Pipeline src Direct destPath] |}
      end)).
Proof.
  intros Hs Hd Hsrc Hdest. unfold moveFile. rewrite Hs, Hd. cbn [negb orb].
  unfold_monad. cbn beta iota zeta. rewrite Hsrc.
  cbn [isFile negb invoked fs]. rewrite Hdest.
  cbn [isDirectory negb invoked fs cwd out calls].
  destruct (rename io (fs w) _ _);
    unfold invoked; cbn [fs cwd out calls]; rewrite <- ?app_assoc;
    [reflexivity|].
  destruct (snd (pipeline io (fs w) _ Direct _));
    cbn [fs cwd out calls]; rewrite <- ?app_assoc;
    [|reflexivity].
  destruct (unlink io _ _);
    cbn [fs cwd out calls]; rewrite <- ?app_assoc; reflexivity.
Qed.

Lemma second_token_truthy (trimmed s : str) :
  nth_error (parts_of trimmed) 1 = Some s -> truthy s = true.
Proof.
  intros H. apply nth_error_In in H.
  pose proof (parts_of_truthy trimmed) as Hall.
  rewrite forallb_forall in Hall. auto.
Qed.

(** X17 -- Copying.  [cp src dir], with a regular file at the resolved
    source and a directory at the resolved destination, runs one stream
    pipeline from the source to the destination directory joined with the
    source's base name, and nothing else: the source is never renamed or
    unlinked.  It prints [Operation failed] exactly when the pipeline
    fails.  The copy keeps the base name and lies directly in the
    destination directory. *)
Theorem copy_lands_in_directory (line srcArg : str) (w : World FS) :
  let parts := parts_of (trim line) in
  let src := safeResolve (cwd w) srcArg in
  let destDir := safeResolve (cwd w) (rest_from 2 parts) in
  let destPath := join [destDir; basename src] in
  let r := pipeline io (fs w) src Direct destPath in
  case_of (nth_error parts 0) = CaseCp ->
  nth_error parts 1 = Some srcArg ->
  truthy (rest_from 2 parts) = true ->
  isAbsolute (cwd w) = true ->
  stat io (fs w) src = Some KFile ->
  stat io (fs w) destDir = Some KDirectory ->
  handleLine io host line w
  = (Done tt,
     {| cwd := cwd w; fs := fst r;
        out := out w ++ (if snd r then [] else [OutFailed])
               ++ [OutCwd (cwd w)];
        calls := calls w
                 ++ [Stat src; Stat destDir; Pipeline src Direct destPath]
     |})
  /\ (src <> [slash] ->
      basename destPath = basename src
      /\ (dirname destPath = destDir \/ dirname destPath ++ [slash] = destDir)).
Proof.
  intros parts src destDir destPath r. subst r destPath destDir src.
  intros Hcase Hsrc Hdest Habs Hfile Hdir.
  split; [|now apply arrival].
  rewrite handleLine_selected by (fold parts; rewrite Hcase; discriminate).
  fold parts. unfold dispatch. cbv zeta. rewrite Hcase, Hsrc.
  rewrite copyFile_run;
    try assumption; [|now apply second_token_truthy with (trim line)].
  cbv zeta. unfold reported. cbn [cwd fs out calls].
  now rewrite <- app_assoc.
Qed.

(** X22 -- Moving.  [mv src dir], with a regular file at the resolved
    source and a directory at the resolved destination, first asks for a
    rename to the destination directory joined with the base name; when
    that succeeds nothing else is done.  When it is rejected, the file is
    copied by a stream pipeline and the source unlinked afterwards: a
    failed copy leaves the source alone, and a failed unlink leaves both
    files; each of the two prints [Operation failed]. *)
Theorem move_renames_or_copies (line srcArg : str) (w : World FS) :
  let parts := parts_of (trim line) in
  let src := safeResolve (cwd w) srcArg in
  let destDir := safeResolve (cwd w) (rest_from 2 parts) in
  let destPath := join [destDir; basename src] in
  let asked := [Stat src; Stat destDir; Rename src destPath] in
  let r := pipeline io (fs w) src Direct destPath in
  case_of (nth_error parts 0) = CaseMv ->
  nth_error parts 1 = Some srcArg ->
  truthy (rest_from 2 parts) = true ->
  stat io (fs w) src = Some KFile ->
  stat io (fs w) destDir = Some KDirectory ->
  handleLine io host line w
  = (Done tt,
     match rename io (fs w) src destPath with
     | Some renamed =>
         {| cwd := cwd w; fs := renamed; out := out w ++ [OutCwd (cwd w)];
            calls := calls w ++ asked |}
     | None =>
         if snd r then
           match unlink io (fst r) src with
           | Some unlinked =>
               {| cwd := cwd w; fs := unlinked;
                  out := out w ++ [OutCwd (cwd w)];
                  calls := calls w ++ asked
                           ++ [Pipeline src Direct destPath; Unlink src] |}
           | None =>
               {| cwd := cwd w; fs := fst r;
                  out := out w ++ [OutFailed; OutCwd (cwd w)];
                  calls := calls w ++ asked
                           ++ [Pipeline src Direct destPath; Unlink src] |}
           end
         else
           {| cwd := cwd w; fs := fst r;
              out := out w ++ [OutFailed; OutCwd (cwd w)];
              calls := calls w ++ asked ++ [Pipeline src Direct destPath] |}
     end).
Proof.
  intros parts src destDir destPath asked r.
  subst r asked destPath destDir src.
  intros Hcase Hsrc Hdest Hfile Hdir.
  rewrite handleLine_selected by (fold parts; rewrite Hcase; discriminate).
  fold parts. unfold dispatch. cbv zeta. rewrite Hcase, Hsrc.
  rewrite moveFile_run;
    try assumption; [|now apply second_token_truthy with (trim line)].
  cbv zeta. unfold reported.
  destruct (rename io (fs w) _ _); [reflexivity|].
  destruct (snd (pipeline io (fs w) _ Direct _)).
  - destruct (unlink io _ _); cbn [cwd fs out calls];
      [reflexivity|now rewrite <- app_assoc].
  - cbn [cwd fs out calls]. now rewrite <- app_assoc.
Qed.

End CopyAndMove.

Lemma copy_lands_in_directory_witness :
  calls (snd (handleLine Demo.io Demo.host (lit "cp a.txt /tmp/")
                Demo.world0))
  = [Stat (lit "/home/u/a.txt"); Stat (lit "/tmp/");
     Pipeline (lit "/home/u/a.txt") Direct (lit "/tmp/a.txt")]
  /\ Demo.lookup
       (fs (snd (handleLine Demo.io Demo.host (lit "cp a.txt /tmp/")
                   Demo.world0))) (lit "/home/u/a.txt")
     = Some (Demo.File (lit "hi") true).
Proof.
  destruct (copy_lands_in_directory Demo.Disk Demo.io Demo.host
              (lit "cp a.txt /tmp/") (lit "a.txt") Demo.world0
              eq_refl eq_refl eq_refl eq_refl eq_refl eq_refl) as [Hrun _].
  rewrite Hrun. split; reflexivity.
Defined.

Lemma move_renames_or_copies_witness :
  calls (snd (handleLine cross_device_io Demo.host (lit "mv a.txt /tmp")
                Demo.world0))
  = [Stat (lit "/home/u/a.txt"); Stat (lit "/tmp");
     Rename (lit "/home/u/a.txt") (lit "/tmp/a.txt");
     Pipeline (lit "/home/u/a.txt") Direct (lit "/tmp/a.txt");
     Unlink (lit "/home/u/a.txt")].
Proof.
  rewrite (move_renames_or_copies Demo.Disk cross_device_io Demo.host
             (lit "mv a.txt /tmp") (lit "a.txt") Demo.world0
             eq_refl eq_refl eq_refl eq_refl eq_refl).
  reflexivity.
Defined.

(* ===================================================================== *)
(** ** Compressing, and the host facts *)
(* ===================================================================== *)

Section CodecAndOs.

Variable FS : Type.
Variable io : Collab FS.
Variable host : Host.

Lemma codecFile_run (stage : Stage) (srcArg destArg : str) (w : World FS) :
  truthy srcArg = true -> truthy destArg = true ->
  stat io (fs w) (safeResolve (cwd w) srcArg) = Some KFile ->
  codecFile io stage (Some srcArg) destArg w
  = (let src := safeResolve (cwd w) srcArg in
     let destPath := safeResolve (cwd w) destArg in
     let destDir := dirname destPath in
     let r := pipeline io (fs w) src stage destPath in
     let asked := [Stat src; Stat destDir; Pipeline src stage destPath] in
     let refused :=
       (Done tt,
        {| cwd := cwd w; fs := fs w; out := out w ++ [OutInvalid];
           calls := calls w ++ [Stat src; Stat destDir] |}) in
     match stat io (fs w) destDir with
     | Some k =>
         if isDirectory k then
           match codec_error io (fs w) src stage destPath with
           | Some remains =>
               (Crashed,
                {| cwd := cwd w; fs := remains; out := out w;
                   calls := calls w ++ asked |})
           | None =>
               (Done tt,
                {| cwd := cwd w; fs := fst r;
                   out := out w ++ (if snd r then [] else [OutFailed]);
                   calls := calls w ++ asked |})
           end
         else refused
     | None => refused
     end).
Proof.
  intros Hs Hd Hsrc. unfold codecFile. rewrite Hs, Hd. cbn [negb orb].
  unfold_monad. cbn beta iota zeta. rewrite Hsrc.
  cbn [isFile negb invoked fs].
  destruct (stat io (fs w) (dirname (safeResolve (cwd w) destArg))) as [k|].
  - destruct (isDirectory k); cbn [negb invoked fs cwd out calls].
    + destruct (codec_error io (fs w) (safeResolve (cwd w) srcArg) stage
                  (safeResolve (cwd w) destArg)).
      * unfold invoked; cbn [fs cwd out calls].
        rewrite <- ?app_assoc. reflexivity.
      * destruct (snd (pipeline io (fs w) (safeResolve (cwd w) srcArg) stage
                         (safeResolve (cwd w) destArg)));
          unfold invoked; cbn [fs cwd out calls];
          rewrite <- ?app_assoc, ?app_nil_r; reflexivity.
    + unfold invoked. cbn [fs cwd out calls].
      now rewrite <- ?app_assoc.
  - unfold invoked. cbn [fs cwd out calls]. now rewrite <- ?app_assoc.
Qed.

(** X23 -- Compressing and decompressing.  With a regular file at the
    resolved source, [compress] and [decompress] take the resolved
    destination as the path of the file to write and check only that its
    parent is a directory: if not, they print [Invalid input] and start no
    pipeline; otherwise they run one pipeline from the source through
    their codec to that path.  When the codec emits an error, the process
    dies: nothing is printed, not even the cwd line.  Otherwise the
    handler returns, and [Operation failed] is printed exactly when one of
    the two streams failed.  The source is never renamed or unlinked. *)
Theorem codec_writes_to_destination_path
  (stage : Stage) (line srcArg : str) (w : World FS) :
  let parts := parts_of (trim line) in
  let src := safeResolve (cwd w) srcArg in
  let destPath := safeResolve (cwd w) (rest_from 2 parts) in
  let destDir := dirname destPath in
  let r := pipeline io (fs w) src stage destPath in
  let asked := [Stat src; Stat destDir; Pipeline src stage destPath] in
  let refused :=
    (Done tt,
     {| cwd := cwd w; fs := fs w;
        out := out w ++ [OutInvalid; OutCwd (cwd w)];
        calls := calls w ++ [Stat src; Stat destDir] |}) in
  (case_of (nth_error parts 0) = CaseCompress /\ stage = BrotliCompress)
  \/ (case_of (nth_error parts 0) = CaseDecompress
      /\ stage = BrotliDecompress) ->
  nth_error parts 1 = Some srcArg ->
  truthy (rest_from 2 parts) = true ->
  stat io (fs w) src = Some KFile ->
  handleLine io host line w
  = match stat io (fs w) destDir with
    | Some k =>
        if isDirectory k then
          match codec_error io (fs w) src stage destPath with
          | Some remains =>
              (Crashed,
               {| cwd := cwd w; fs := remains; out := out w;
                  calls := calls w ++ asked |})
          | None =>
              (Done tt,
               {| cwd := cwd w; fs := fst r;
                  out := out w ++ (if snd r then [] else [OutFailed])
                         ++ [OutCwd (cwd w)];
                  calls := calls w ++ asked |})
          end
        else refused
    | None => refused
    end.
Proof.
  intros parts src destPath destDir r asked refused.
  subst refused asked r destDir destPath src.
  intros Hcase Hsrc Hdest Hfile.
  assert (Hsel : case_of (nth_error parts 0) <> CaseDefault).
  { destruct Hcase as [[E _]|[E _]]; rewrite E; discriminate. }
  rewrite handleLine_selected by exact Hsel.
  fold parts. unfold dispatch, compressFile, decompressFile. cbv zeta.
  destruct Hcase as [[E ->]|[E ->]]; rewrite E, Hsrc;
    (rewrite codecFile_run;
     try assumption; [|now apply second_token_truthy with (trim line)]);
    cbv zeta; unfold reported;
    (destruct (stat io (fs w)
                 (dirname (safeResolve (cwd w) (rest_from 2 parts))))
       as [k|];
     [destruct (isDirectory k);
      [destruct (codec_error io (fs w) _ _ _)|]|]);
    cbn [cwd fs out calls]; rewrite <- ?app_assoc; reflexivity.
Qed.

Lemma cpu_lines_nth (l : list (str * str)) (k i : nat) (c : str * str) :
  nth_error l i = Some c ->
  nth_error (cpu_lines k l) i = Some (cpu_line (k + i) c).
Proof.
  revert k i. induction l as [|c0 l IH]; intros k [|i] H;
    cbn [nth_error cpu_lines] in *; try discriminate.
  - injection H as ->. now rewrite Nat.add_0_r.
  - rewrite (IH (S k) i H). do 2 f_equal. lia.
Qed.

Lemma cpu_lines_length (l : list (str * str)) (k : nat) :
  List.length (cpu_lines k l) = List.length l.
Proof.
  revert k. induction l as [|c l IH]; intros k; cbn [cpu_lines List.length];
    [reflexivity|now rewrite IH].
Qed.

(** X24 -- The CPU inventory.  [os --cpus] prints the number of CPUs and
    then one line per CPU, in the order of the inventory and numbered from
    1, with the model name trimmed; the cwd line follows. *)
Theorem os_cpus_listing (line : str) (w : World FS) :
  let parts := parts_of (trim line) in
  case_of (nth_error parts 0) = CaseOs ->
  nth_error parts 1 = Some (lit "--cpus") ->
  handleLine io host line w
  = (Done tt,
     said w
       (OutLog (lit "Total CPUs: " ++ of_nat (List.length (cpus host)))
        :: map OutLog (cpu_lines 0 (cpus host)) ++ [OutCwd (cwd w)]))
  /\ List.length (cpu_lines 0 (cpus host)) = List.length (cpus host)
  /\ (forall i c,
        nth_error (cpus host) i = Some c ->
        nth_error (cpu_lines 0 (cpus host)) i
        = Some (lit "CPU " ++ of_nat (i + 1) ++ lit ": " ++ trim (fst c)
                  ++ lit " - " ++ snd c ++ lit "GHz")).
Proof.
  intros parts Hcase Hflag. split; [|split].
  - rewrite handleLine_selected by (fold parts; rewrite Hcase; discriminate).
    fold parts. unfold dispatch. cbv zeta. rewrite Hcase, Hflag.
    unfold osInfo. cbn [str_eqb lit list_ascii_of_string Ascii.eqb Bool.eqb
                          andb].
    unfold_monad. cbn beta iota zeta. rewrite console_log_each_run.
    unfold reported, said. cbn [cwd fs out calls].
    now rewrite <- !app_assoc.
  - apply cpu_lines_length.
  - intros i c H. now apply cpu_lines_nth with (k := 0).
Qed.

End CodecAndOs.

Lemma codec_writes_to_destination_path_witness :
  handleLine Demo.io Demo.host (lit "compress a.txt /tmp/a.br") Demo.world0
  = (Done tt,
     {| cwd := lit "/home/u";
        fs := Demo.disk0
              ++ [(lit "/tmp/a.br", Demo.File (Demo.mark :: lit "hi") true)];
        out := [OutCwd (lit "/home/u")];
        calls := [Stat (lit "/home/u/a.txt"); Stat (lit "/tmp");
                  Pipeline (lit "/home/u/a.txt") BrotliCompress
                    (lit "/tmp/a.br")] |})
  /\ handleLine Demo.io Demo.host (lit "decompress a.txt /tmp/b.txt")
       Demo.world0
     = (Crashed,
        {| cwd := lit "/home/u";
           fs := Demo.disk0 ++ [(lit "/tmp/b.txt", Demo.File [] true)];
           out := [];
           calls := [Stat (lit "/home/u/a.txt"); Stat (lit "/tmp");
                     Pipeline (lit "/home/u/a.txt") BrotliDecompress
                       (lit "/tmp/b.txt")] |}).
Proof.
  split.
  - exact (codec_writes_to_destination_path Demo.Disk Demo.io Demo.host
             BrotliCompress (lit "compress a.txt /tmp/a.br") (lit "a.txt")
             Demo.world0 (or_introl (conj eq_refl eq_refl))
             eq_refl eq_refl eq_refl).
  - exact (codec_writes_to_destination_path Demo.Disk Demo.io Demo.host
             BrotliDecompress (lit "decompress a.txt /tmp/b.txt")
             (lit "a.txt") Demo.world0 (or_intror (conj eq_refl eq_refl))
             eq_refl eq_refl eq_refl).
Defined.

Lemma os_cpus_listing_witness :
  Demo.printed (snd (handleLine Demo.io Demo.host (lit "os --cpus extra")
                       Demo.world0))
  = ["Total CPUs: 1"; "CPU 1: Demo CPU - 2.40GHz";
     "You are currently in /home/u"]%string.
Proof.
  destruct (os_cpus_listing Demo.Disk Demo.io Demo.host
              (lit "os --cpus extra") Demo.world0 eq_refl eq_refl)
    as [Hrun _].
  rewrite Hrun. reflexivity.
Defined.
